(** * Huffman coding script ([huffman.py]): model and verified properties

    The development follows the script function by function.

    - Python values that raise are computations in [result]; the functions
      that print, log, read the clock or touch files run in the monad [M]
      over an explicit [world].
    - A [dict] is an association list in insertion order, the order Python
      iterates in, with the update-in-place semantics of [d[k] = v].
    - The text being compressed is a list of symbols of an arbitrary type
      with decidable equality (Python compares the one-character strings
      with [==]); strings of ["0"] and ["1"] are lists of [ascii].
    - A [bitarray] is a list of booleans, most significant bit first, and a
      file holds a list of [byte]s. *)

From Stdlib Require Import Ascii String.
From Stdlib Require Import List Arith Lia Bool.
From Stdlib Require Import Strings.Byte.
From Stdlib Require Import Sorting.Permutation Sorting.Sorted.
Import ListNotations.

Set Implicit Arguments.

(** * Exceptions and results *)

(** The exceptions the script can raise.  Only [ValueError] with the header
    message is raised by a [raise] statement of the script itself; the
    others come from the built-in operations it calls. *)
Inductive exception : Type :=
| IndexError
| KeyError
| ValueError (msg : string)
| FileNotFoundError
| UnicodeDecodeError
| SyntaxError
| EOFError
| UnicodeEncodeError.

Inductive result (A : Type) : Type :=
| Ok (a : A)
| Raise (e : exception).

Arguments Ok {A} a.
Arguments Raise {A} e.

Definition rbind {A B : Type} (r : result A) (k : A -> result B) : result B :=
  match r with
  | Ok a => k a
  | Raise e => Raise e
  end.

Declare Scope result_scope.
Delimit Scope result_scope with result.
Notation "x <- c ;; k" := (rbind c (fun x => k))
  (at level 61, c at next level, right associativity) : result_scope.
Notation "' p <- c ;; k" := (rbind c (fun x => let p := x in k))
  (at level 61, p pattern, c at next level, right associativity) : result_scope.

(** [[f(x) for x in l]] where [f] may raise. *)
Fixpoint comprehension {A B : Type} (f : A -> result B) (l : list A)
  : result (list B) :=
  match l with
  | [] => Ok []
  | x :: l' =>
      (y <- f x ;; ys <- comprehension f l' ;; Ok (y :: ys))%result
  end.

(** * Keys *)

(** What a dictionary needs of its keys. *)
Class EqDec (A : Type) : Type :=
  eq_dec : forall x y : A, {x = y} + {x <> y}.

#[export] Instance ascii_EqDec : EqDec ascii := ascii_dec.
#[export] Instance list_EqDec {A : Type} `{EqDec A} : EqDec (list A) :=
  list_eq_dec eq_dec.

(** * Dictionaries *)

Definition dict (K V : Type) : Type := list (K * V).

Section Dict.
Context {K V : Type} `{EqDec K}.

Definition keys (d : dict K V) : list K := map fst d.
Definition values (d : dict K V) : list V := map snd d.
Definition items (d : dict K V) : list (K * V) := d.

(** [d.get(k)] *)
Fixpoint dict_get (d : dict K V) (k : K) : option V :=
  match d with
  | [] => None
  | (k', v) :: d' => if eq_dec k k' then Some v else dict_get d' k
  end.

(** [k in d] *)
Definition contains (d : dict K V) (k : K) : bool :=
  match dict_get d k with Some _ => true | None => false end.

(** [d[k]] *)
Definition getitem (d : dict K V) (k : K) : result V :=
  match dict_get d k with
  | Some v => Ok v
  | None => Raise KeyError
  end.

(** [d[k] = v]: an existing key keeps its position, a new one goes last. *)
Fixpoint setitem (d : dict K V) (k : K) (v : V) : dict K V :=
  match d with
  | [] => [(k, v)]
  | (k', v') :: d' =>
      if eq_dec k k' then (k', v) :: d' else (k', v') :: setitem d' k v
  end.

(** [d.update(pairs)] *)
Definition update (d : dict K V) (pairs : list (K * V)) : dict K V :=
  fold_left (fun acc kv => setitem acc (fst kv) (snd kv)) pairs d.

(** [d1 | d2] *)
Definition dict_or (d1 d2 : dict K V) : dict K V := update d1 (items d2).

(** [dict(pairs)] *)
Definition dict_of (pairs : list (K * V)) : dict K V := update [] pairs.

(** The lists that are dictionaries: no key occurs twice. *)
Definition dict_wf (d : dict K V) : Prop := NoDup (keys d).
End Dict.

(** * The tree *)

Section Huffman.
Context {char : Type} `{EqDec char}.

(** [Node(value, char, left, right)].  The script builds nodes of two
    shapes only: [Node(value, char)] with no children, and
    [Node(value, None, left, right)]. *)
Inductive Node : Type :=
| Leaf (value : nat) (c : char)
| Internal (value : nat) (left_ right_ : Node).

Definition value (n : Node) : nat :=
  match n with
  | Leaf v _ => v
  | Internal v _ _ => v
  end.

(** [Node.get_schema] *)
Fixpoint get_schema (self : Node) (pattern : list ascii)
  : dict char (list ascii) :=
  match self with
  | Leaf _ c => [(c, pattern)]
  | Internal _ left_ right_ =>
      let left_schema := get_schema left_ (pattern ++ ["0"%char]) in
      let right_schema := get_schema right_ (pattern ++ ["1"%char]) in
      dict_or left_schema right_schema
  end.

(** The body of the loop of [generate_frequency_map]. *)
Definition count_char (char_map : dict char nat) (c : char)
  : dict char nat :=
  match dict_get char_map c with
  | Some n => setitem char_map c (n + 1)
  | None => setitem char_map c 1
  end.

(** The dictionary [generate_frequency_map] computes. *)
Definition frequency_map (string : list char) : dict char nat :=
  fold_left count_char string [].

(** [list.sort(key=lambda x: x.value)].  Python's sort is stable, and a
    stable sort has one possible result; insertion from the right
    computes it. *)
Fixpoint insert_by_value (x : Node) (l : list Node) : list Node :=
  match l with
  | [] => [x]
  | y :: l' =>
      if value x <=? value y then x :: y :: l'
      else y :: insert_by_value x l'
  end.

Fixpoint sort_by_value (l : list Node) : list Node :=
  match l with
  | [] => []
  | x :: l' => insert_by_value x (sort_by_value l')
  end.

(** [l.pop(0)], with the list that remains. *)
Definition pop0 (l : list Node) : result (Node * list Node) :=
  match l with
  | [] => Raise IndexError
  | x :: l' => Ok (x, l')
  end.

(** The [while] loop of [construct_tree]; every iteration shortens the
    list by one, so [fuel] bounds the iterations. *)
Fixpoint merge_loop (fuel : nat) (ascending_keys : list Node)
  : result (list Node) :=
  match fuel with
  | 0 => Ok ascending_keys
  | S fuel' =>
      if 1 <? length ascending_keys then
        (let sorted := sort_by_value ascending_keys in
         '(left_, sorted1) <- pop0 sorted ;;
         '(right_, sorted2) <- pop0 sorted1 ;;
         let new_parent_node :=
           Internal (value left_ + value right_) left_ right_ in
         merge_loop fuel' (sorted2 ++ [new_parent_node]))%result
      else Ok ascending_keys
  end.

(** [construct_tree] *)
Definition construct_tree (char_map : dict char nat) : result Node :=
  (ascending_keys <-
     comprehension (fun k => v <- getitem char_map k ;; Ok (Leaf v k))
                   (keys char_map) ;;
   ascending_keys <- merge_loop (length ascending_keys) ascending_keys ;;
   match ascending_keys with
   | [] => Raise IndexError
   | top :: _ => Ok top
   end)%result.

(** [encode_string_with_schema] *)
Definition encode_string_with_schema
    (string : list char) (encoding : dict char (list ascii))
  : result (list ascii) :=
  (output <- comprehension (getitem encoding) string ;;
   Ok (concat output))%result.

(** The loop of [decode_string_with_schema]: the state is
    [(output, pattern)]. *)
Definition decode_step (encoding : dict (list ascii) char)
    (st : list char * list ascii) (c : ascii) : list char * list ascii :=
  let '(output, pattern) := st in
  let pattern := pattern ++ [c] in
  match dict_get encoding pattern with
  | Some k => (output ++ [k], [])
  | None => (output, pattern)
  end.

Definition swap_items (encoding : dict char (list ascii))
  : dict (list ascii) char :=
  dict_of (map (fun kv => (snd kv, fst kv)) (items encoding)).

(** [decode_string_with_schema] *)
Definition decode_string_with_schema
    (string : list ascii) (encoding : dict char (list ascii))
  : list char :=
  let encoding := swap_items encoding in
  fst (fold_left (decode_step encoding) string ([], [])).

End Huffman.

Arguments Node char : clear implicits.

(** * Bit arrays *)

(** A [bitarray] with the default (big-endian) bit order: the first bit of
    the array is the most significant bit of the first byte. *)
Definition bitarray : Type := list bool.

(** [bitarray("00000000")] *)
Definition null_marker : bitarray := repeat false 8.

(** The characters [bitarray.extend] skips in a string: the underscore,
    the space, and the characters 9, 10, 11 and 13. *)
Definition skipped_char (c : ascii) : bool :=
  let n := nat_of_ascii c in
  (n =? 95) || (n =? 32) || (n =? 9) || (n =? 10) || (n =? 11) || (n =? 13).

Definition lower_hex (n : nat) : ascii :=
  if n <? 10 then ascii_of_nat (48 + n) else ascii_of_nat (87 + n).

(** The message of the [ValueError] of [bitarray.extend] for the character
    [c]. *)
Definition refused_message (c : ascii) : string :=
  ("expected '0' or '1' (or whitespace, or underscore), got '"
   ++ String c
        ("' (0x"
         ++ String (lower_hex (nat_of_ascii c / 16))
              (String (lower_hex (nat_of_ascii c mod 16)) ")")))%string.

(** One character of the string given to [bitarray.extend]: a bit, nothing
    for a character that is skipped, and a [ValueError] for any other.
    This is the library on strings of ASCII characters; the strings the
    script passes hold ["0"] and ["1"] only. *)
Definition bit_of_char (c : ascii) : result (option bool) :=
  if ascii_dec c "0" then Ok (Some false)
  else if ascii_dec c "1" then Ok (Some true)
  else if skipped_char c then Ok None
  else Raise (ValueError (refused_message c)).

Definition bits_of_options (l : list (option bool)) : bitarray :=
  flat_map (fun b => match b with Some x => [x] | None => [] end) l.

(** [bits.extend(string)]: the bits of the characters ["0"] and ["1"] of
    the string are appended; nothing is appended when a character is
    refused. *)
Definition extend (bits : bitarray) (string : list ascii) : result bitarray :=
  (new_bits <- comprehension bit_of_char string ;;
   Ok (bits ++ bits_of_options new_bits))%result.

Definition byte_of_bits (b7 b6 b5 b4 b3 b2 b1 b0 : bool) : byte :=
  Byte.of_bits (b0, (b1, (b2, (b3, (b4, (b5, (b6, b7))))))).

Definition bits_of_byte (b : byte) : bitarray :=
  let '(b0, (b1, (b2, (b3, (b4, (b5, (b6, b7))))))) := Byte.to_bits b in
  [b7; b6; b5; b4; b3; b2; b1; b0].

(** [bits.tobytes()], the bytes [bits.tofile(f)] writes: eight bits a byte,
    the last byte filled up with zero bits. *)
Fixpoint tobytes (bits : bitarray) : list byte :=
  match bits with
  | [] => []
  | b7 :: b6 :: b5 :: b4 :: b3 :: b2 :: b1 :: b0 :: rest =>
      byte_of_bits b7 b6 b5 b4 b3 b2 b1 b0 :: tobytes rest
  | _ =>
      let bit i := nth i bits false in
      [byte_of_bits (bit 0) (bit 1) (bit 2) (bit 3)
                    (bit 4) (bit 5) (bit 6) (bit 7)]
  end.

(** The bits [bits.fromfile(f)] appends for the bytes of the file. *)
Definition frombytes (bytes : list byte) : bitarray :=
  flat_map bits_of_byte bytes.

(** [bits[i:j]] for [0 <= i <= j] *)
Definition slice (bits : bitarray) (i j : nat) : bitarray :=
  firstn (j - i) (skipn i bits).

Definition bitarray_eqb (a b : bitarray) : bool :=
  if list_eq_dec bool_dec a b then true else false.

(** The scan of [decompress_from_file] for the first zero byte: the bits
    before it and the bits after it, or [None] when the loop ends without
    [break]. *)
Definition find_header (bits : bitarray) : option (bitarray * bitarray) :=
  let byte_count := length bits / 8 in
  match
    find (fun i => bitarray_eqb (slice bits (i * 8) (i * 8 + 8)) null_marker)
         (seq 0 byte_count)
  with
  | Some i => Some (slice bits 0 (i * 8), skipn (i * 8 + 8) bits)
  | None => None
  end.

(** ["".join(map(lambda x: "1" if x else "0", bits.tolist()))] *)
Definition string_of_bits (bits : bitarray) : list ascii :=
  map (fun x : bool => if x then "1"%char else "0"%char) bits.

(** * The world of the script *)

(** A reading of [time.time()].  The script only subtracts two readings and
    logs the difference, so a reading is kept as an opaque number. *)
Definition timestamp : Type := nat.

Record world : Type := World {
  files : string -> option (list byte);   (* the file system *)
  stdout : list string;                   (* what [print] wrote *)
  stdin : list string;                    (* the lines [input] will read *)
  wall_clock : nat -> timestamp;          (* the n-th reading of the time *)
  readings : nat;                         (* readings taken so far *)
  clock : timestamp;                      (* the global [clock] *)
  debug_log : list (timestamp * timestamp)  (* [logging.debug] records *)
}.

(** Computations that change the world and may raise. *)
Definition M (A : Type) : Type := world -> result A * world.

Definition ret {A : Type} (a : A) : M A := fun w => (Ok a, w).

Definition bind {A B : Type} (m : M A) (k : A -> M B) : M B :=
  fun w =>
    match m w with
    | (Ok a, w') => k a w'
    | (Raise e, w') => (Raise e, w')
    end.

Definition lift {A : Type} (r : result A) : M A := fun w => (r, w).

(** [m] ends with the result [r] from every world and leaves the files as
    they are. *)
Definition keeps_files {A : Type} (m : M A) (r : result A) : Prop :=
  forall w, fst (m w) = r /\ files (snd (m w)) = files w.

Declare Scope M_scope.
Delimit Scope M_scope with M.
Notation "x <- c ;; k" := (bind c (fun x => k))
  (at level 61, c at next level, right associativity) : M_scope.
Notation "' p <- c ;; k" := (bind c (fun x => let p := x in k))
  (at level 61, p pattern, c at next level, right associativity) : M_scope.
Notation "c ;; k" := (bind c (fun _ => k))
  (at level 61, right associativity) : M_scope.

Definition set_files (w : world) (fs : string -> option (list byte)) : world :=
  World fs (stdout w) (stdin w) (wall_clock w) (readings w) (clock w)
        (debug_log w).

(** [print(line)] *)
Definition print (line : string) : M unit :=
  fun w =>
    (Ok tt,
     World (files w) (stdout w ++ [line]) (stdin w) (wall_clock w)
           (readings w) (clock w) (debug_log w)).

(** [input(prompt)]: the prompt is written, then a line is read;
    [EOFError] when the input has no line left. *)
Definition input (prompt : string) : M string :=
  fun w =>
    let w' :=
      World (files w) (stdout w ++ [prompt]) (tl (stdin w)) (wall_clock w)
            (readings w) (clock w) (debug_log w) in
    match stdin w with
    | line :: _ => (Ok line, w')
    | [] => (Raise EOFError, w')
    end.

(** [time.time()] *)
Definition time_time : M timestamp :=
  fun w =>
    (Ok (wall_clock w (readings w)),
     World (files w) (stdout w) (stdin w) (wall_clock w)
           (S (readings w)) (clock w) (debug_log w)).

(** [clock = time.time()] *)
Definition reset_clock : M unit :=
  (t <- time_time ;;
   fun w =>
     (Ok tt,
      World (files w) (stdout w) (stdin w) (wall_clock w)
            (readings w) t (debug_log w)))%M.

(** [stopwatch]: the record logged is the pair of the reading and [clock]. *)
Definition stopwatch : M unit :=
  (t <- time_time ;;
   fun w =>
     (Ok tt,
      World (files w) (stdout w) (stdin w) (wall_clock w)
            (readings w) (clock w) (debug_log w ++ [(t, clock w)])))%M.

Definition write_file (name : string) (data : list byte)
    (fs : string -> option (list byte)) : string -> option (list byte) :=
  fun n => if string_dec n name then Some data else fs n.

(** [open(name, "w").close()]: the file exists and is empty. *)
Definition open_w_close (name : string) : M unit :=
  fun w => (Ok tt, set_files w (write_file name [] (files w))).

(** [f.write(data)] at position [pos] of a file opened with ["r+b"]: the
    bytes there are overwritten, those after them stay.  The result is the
    position after the write. *)
Definition overwrite (old : list byte) (pos : nat) (data : list byte)
  : list byte :=
  firstn pos old ++ data ++ skipn (pos + length data) old.

Definition write_at (name : string) (pos : nat) (data : list byte) : M nat :=
  fun w =>
    match files w name with
    | Some old =>
        (Ok (pos + length data),
         set_files w (write_file name (overwrite old pos data) (files w)))
    | None => (Raise FileNotFoundError, w)
    end.

(** [open(name, "rb")] and reading the whole file. *)
Definition read_file (name : string) : M (list byte) :=
  fun w =>
    match files w name with
    | Some data => (Ok data, w)
    | None => (Raise FileNotFoundError, w)
    end.

(** [s[-n:]] *)
Definition last_chars (n : nat) (s : string) : string :=
  substring (String.length s - n) n s.

(** [s.removesuffix(suffix)] *)
Definition removesuffix (s suffix : string) : string :=
  if string_dec (last_chars (String.length suffix) s) suffix
  then substring 0 (String.length s - String.length suffix) s
  else s.

(** The one-character string holding a double quote. *)
Definition double_quote : string := String (ascii_of_nat 34) EmptyString.

(** [s.lower() == "y"] *)
Definition lower_is_y (s : string) : bool :=
  if string_dec s "y" then true
  else if string_dec s "Y" then true else false.

(** * The functions of the script that act on the world *)

(** What the script takes from Python to store the frequency map: the text
    of the dictionary as bytes, and back.  [eval] is given as a function
    of the header: this is what it is on the text [repr] writes for a
    frequency map; on a header that holds another expression [eval] runs
    that expression, which the model does not follow. *)
Class Codec (char : Type) : Type := {
  (** [repr(character_map).encode("utf-8")] *)
  repr_utf8 : dict char nat -> list byte;
  (** [eval(header.decode("utf-8"))] *)
  eval_utf8 : list byte -> result (dict char nat);
  (** the bytes a file opened with ["w"] holds after [file.write(text)] *)
  encode_text : list char -> list byte;
  (** whether the encoding of such a file has bytes for every symbol of
      the text; [file.write] raises [UnicodeEncodeError] otherwise *)
  encodable : list char -> bool
}.

Section Script.
Context {char : Type} `{EqDec char} `{Codec char}.

(** [generate_frequency_map] *)
Definition generate_frequency_map (string : list char)
  : M (dict char nat) :=
  (print "Generating frequency map..." ;;
   let char_map := frequency_map string in
   print "Done." ;;
   stopwatch ;;
   ret char_map)%M.

(** [huffman_encode] *)
Definition huffman_encode (string : list char)
  : M (dict char (list ascii) * list ascii * dict char nat) :=
  (freq_map <- generate_frequency_map string ;;
   print "Generating tree..." ;;
   top_node <- lift (construct_tree freq_map) ;;
   print "Done." ;;
   stopwatch ;;
   print "Generating encoding dict..." ;;
   let encoding := get_schema top_node [] in
   print "Done." ;;
   stopwatch ;;
   print "Encoding string..." ;;
   encoded_string <- lift (encode_string_with_schema string encoding) ;;
   print "Done." ;;
   stopwatch ;;
   ret (encoding, encoded_string, freq_map))%M.

(** [save_to_file] *)
Definition save_to_file (string : list ascii)
    (character_map : dict char nat) (file_name : String.string) : M unit :=
  (let character_map := repr_utf8 character_map in
   bits <- lift (extend null_marker string) ;;
   open_w_close (file_name ++ ".huff") ;;
   pos <- write_at (file_name ++ ".huff") 0 character_map ;;
   _ <- write_at (file_name ++ ".huff") pos (tobytes bits) ;;
   ret tt)%M.

(** The part of [decompress_from_file] between opening the compressed
    file and opening the file it writes: from the bytes read to
    [original_text]. *)
Definition decompress_bytes (compressed : list byte) : result (list char) :=
  let bits := frombytes compressed in
  match find_header bits with
  | None => Raise (ValueError "File header is corrupted or non-existent")
  | Some (freq_map, bits) =>
      (freq_map <- eval_utf8 (tobytes freq_map) ;;
       let encoded_string := string_of_bits bits in
       top_node <- construct_tree freq_map ;;
       let encoding := get_schema top_node [] in
       Ok (decode_string_with_schema encoded_string encoding))%result
  end.

(** [with open(name, "w") as file: file.write(text)]: the file is created
    or emptied when it is opened, and holds the text after the write.  The
    empty name cannot be opened; a text that cannot be encoded leaves the
    file empty.  The file system of the model is one directory in which
    every other name can be created. *)
Definition write_text (name : String.string) (text : list char) : M unit :=
  fun w =>
    if string_dec name "" then (Raise FileNotFoundError, w)
    else if encodable text then
      (Ok tt, set_files w (write_file name (encode_text text) (files w)))
    else
      (Raise UnicodeEncodeError, set_files w (write_file name [] (files w))).

(** [decompress_from_file] *)
Definition decompress_from_file (file_name : String.string) : M unit :=
  (proceed <-
     (if string_dec (last_chars 5 file_name) ".huff" then ret true
      else
        print "You are attempting to decompress a file without the .huff extension." ;;
        print "If the file was not compressed using this software you may experience data loss." ;;
        print ("Enter " ++ double_quote ++ "Y" ++ double_quote
               ++ " to continue - any other input will cancel the command.") ;;
        answer <- input "> " ;;
        ret (lower_is_y answer)) ;;
   if proceed : bool then
     compressed <- read_file file_name ;;
     original_text <- lift (decompress_bytes compressed) ;;
     write_text (removesuffix file_name ".huff") original_text
   else ret tt)%M.

(** The statements of the script that compress [data], the text read from
    [test_file]. *)
Definition main_compress (data : list char) (test_file : String.string)
  : M unit :=
  ('(e, s, m) <- huffman_encode data ;;
   print "Saving to file..." ;;
   save_to_file s m test_file)%M.

(** The statement of the script that decompresses the file again. *)
Definition main_decompress (test_file : String.string) : M unit :=
  (print "Decompressing the file back!" ;;
   reset_clock ;;
   decompress_from_file (test_file ++ ".huff") ;;
   print "Done" ;;
   stopwatch)%M.

End Script.

(** * An instance: texts of Latin-1 characters

    The symbols are the code points 0 to 255, held as [ascii].  For them
    [repr], [str.encode("utf-8")] and [bytes.decode("utf-8")] are written
    out in full; [eval] is defined on the dictionary displays [repr]
    writes. *)
Module Latin1.

Definition code (c : ascii) : nat := nat_of_ascii c.

(** [c.isprintable()] for a code point below 256. *)
Definition isprintable (c : ascii) : bool :=
  let n := code c in
  ((32 <=? n) && (n <=? 126))
  || ((161 <=? n) && (n <=? 255) && negb (n =? 173)).

Definition hex_digit (n : nat) : ascii :=
  if n <? 10 then ascii_of_nat (48 + n) else ascii_of_nat (87 + n).

(** The text [repr] writes for one character between the quotes. *)
Definition repr_char (c : ascii) : list ascii :=
  let n := code c in
  if n =? 92 then ["\"; "\"]%char
  else if n =? 9 then ["\"; "t"]%char
  else if n =? 10 then ["\"; "n"]%char
  else if n =? 13 then ["\"; "r"]%char
  else if isprintable c then [c]
  else ["\"; "x"; hex_digit (n / 16); hex_digit (n mod 16)]%char.

Definition single_quote : ascii := ascii_of_nat 39.
Definition double_quote : ascii := ascii_of_nat 34.

(** [repr(c)] for a string of one character: single quotes, unless the
    character is the single quote. *)
Definition repr_str (c : ascii) : list ascii :=
  if code c =? 39 then [double_quote; c; double_quote]
  else [single_quote] ++ repr_char c ++ [single_quote].

Fixpoint digits (fuel n : nat) (acc : list ascii) : list ascii :=
  match fuel with
  | 0 => acc
  | S fuel' =>
      let acc := ascii_of_nat (48 + n mod 10) :: acc in
      if n <? 10 then acc else digits fuel' (n / 10) acc
  end.

(** [repr(n)] for an integer [n >= 0] *)
Definition repr_int (n : nat) : list ascii := digits (S n) n [].

Definition repr_item (kv : ascii * nat) : list ascii :=
  repr_str (fst kv) ++ [":"; " "]%char ++ repr_int (snd kv).

Fixpoint join (sep : list ascii) (l : list (list ascii)) : list ascii :=
  match l with
  | [] => []
  | [x] => x
  | x :: l' => x ++ sep ++ join sep l'
  end.

(** [repr(character_map)] *)
Definition repr_dict (d : dict ascii nat) : list ascii :=
  ["{"%char] ++ join [","; " "]%char (map repr_item (items d)) ++ ["}"%char].

(** [text.encode("utf-8")] *)
Definition encode_char (c : ascii) : list byte :=
  let n := code c in
  if n <? 128 then [byte_of_ascii c]
  else [byte_of_ascii (ascii_of_nat (192 + n / 64));
        byte_of_ascii (ascii_of_nat (128 + n mod 64))].

Definition encode (text : list ascii) : list byte :=
  flat_map encode_char text.

(** [bytes.decode("utf-8")], for the encodings of code points below 256. *)
Fixpoint decode (bytes : list byte) : result (list ascii) :=
  match bytes with
  | [] => Ok []
  | b :: rest =>
      let n := code (ascii_of_byte b) in
      if n <? 128 then
        (text <- decode rest ;; Ok (ascii_of_byte b :: text))%result
      else if (n =? 194) || (n =? 195) then
        match rest with
        | b2 :: rest' =>
            let n2 := code (ascii_of_byte b2) in
            if (128 <=? n2) && (n2 <? 192) then
              (text <- decode rest' ;;
               Ok (ascii_of_nat ((n - 192) * 64 + (n2 - 128)) :: text))%result
            else Raise UnicodeDecodeError
        | [] => Raise UnicodeDecodeError
        end
      else Raise UnicodeDecodeError
  end.

Definition hex_value (c : ascii) : option nat :=
  let n := code c in
  if (48 <=? n) && (n <=? 57) then Some (n - 48)
  else if (97 <=? n) && (n <=? 102) then Some (n - 87)
  else if (65 <=? n) && (n <=? 70) then Some (n - 55)
  else None.

(** A string literal of one character at the start of [text], and the
    text after it. *)
Definition eval_str (text : list ascii) : option (ascii * list ascii) :=
  match text with
  | q :: rest =>
      if ((code q =? 39) || (code q =? 34))%bool then
        match rest with
        | "\"%char :: e :: rest' =>
            let after c tail :=
              match tail with
              | q' :: tail' =>
                  if code q' =? code q then Some (c, tail') else None
              | [] => None
              end in
            if code e =? 92 then after "\"%char rest'
            else if code e =? 39 then after single_quote rest'
            else if code e =? 34 then after double_quote rest'
            else if code e =? 116 then after (ascii_of_nat 9) rest'
            else if code e =? 110 then after (ascii_of_nat 10) rest'
            else if code e =? 114 then after (ascii_of_nat 13) rest'
            else if code e =? 120 then
              match rest' with
              | h :: l :: rest'' =>
                  match hex_value h, hex_value l with
                  | Some hv, Some lv =>
                      after (ascii_of_nat (hv * 16 + lv)) rest''
                  | _, _ => None
                  end
              | _ => None
              end
            else None
        | c :: q' :: rest' =>
            if (code q' =? code q) && negb (code c =? code q)
               && negb (code c =? 10)
            then Some (c, rest') else None
        | _ => None
        end
      else None
  | [] => None
  end.

(** A decimal integer at the start of [text], and the text after it;
    [acc] holds the digits read so far. *)
Fixpoint eval_digits (text : list ascii) (acc : option nat)
  : option (nat * list ascii) :=
  match text with
  | c :: rest =>
      let n := code c in
      if (48 <=? n) && (n <=? 57) then
        eval_digits rest
          (Some (match acc with Some a => a * 10 | None => 0 end + (n - 48)))
      else match acc with Some a => Some (a, text) | None => None end
  | [] => match acc with Some a => Some (a, text) | None => None end
  end.

(** The items of a dictionary display after the opening brace, in the
    layout [repr] writes. *)
Fixpoint eval_items (fuel : nat) (text : list ascii)
  : option (list (ascii * nat)) :=
  match fuel with
  | 0 => None
  | S fuel' =>
      match eval_str text with
      | Some (k, (":" :: " " :: text1)%char) =>
          match eval_digits text1 None with
          | Some (v, ["}"%char]) => Some [(k, v)]
          | Some (v, ("," :: " " :: text2)%char) =>
              match eval_items fuel' text2 with
              | Some kvs => Some ((k, v) :: kvs)
              | None => None
              end
          | _ => None
          end
      | _ => None
      end
  end.

(** [eval(text)] for the display of a dictionary from characters to
    integers; a later item with the same key replaces the value. *)
Definition eval_dict (text : list ascii) : result (dict ascii nat) :=
  match text with
  | ["{"; "}"]%char => Ok []
  | "{"%char :: text' =>
      match eval_items (length text') text' with
      | Some kvs => Ok (dict_of kvs)
      | None => Raise SyntaxError
      end
  | _ => Raise SyntaxError
  end.

#[global] Instance codec : Codec ascii := {
  repr_utf8 d := encode (repr_dict d);
  eval_utf8 bytes := (text <- decode bytes ;; eval_dict text)%result;
  encode_text := encode;
  encodable := fun _ => true
}.

(** A world with no files, nothing on the input and a clock that reads
    the number of the reading. *)
Definition empty_world : world :=
  World (fun _ => None) [] [] (fun n => n) 0 0 [].

End Latin1.

(** * Vocabulary of the properties *)

Section Vocabulary.
Context {char : Type} `{EqDec char}.

(** The symbols at the leaves of a tree, left to right. *)
Fixpoint leaves (t : Node char) : list char :=
  match t with
  | Leaf _ c => [c]
  | Internal _ l r => leaves l ++ leaves r
  end.

(** The root-to-leaf paths of a tree, ["0"] for left and ["1"] for
    right. *)
Fixpoint root_to_leaf_paths (t : Node char) : list (list ascii) :=
  match t with
  | Leaf _ _ => [[]]
  | Internal _ l r =>
      map (cons "0"%char) (root_to_leaf_paths l)
      ++ map (cons "1"%char) (root_to_leaf_paths r)
  end.

(** Every leaf with its path, left to right. *)
Fixpoint leaf_paths (t : Node char) : list (char * list ascii) :=
  match t with
  | Leaf _ c => [(c, [])]
  | Internal _ l r =>
      map (fun kv => (fst kv, "0"%char :: snd kv)) (leaf_paths l)
      ++ map (fun kv => (fst kv, "1"%char :: snd kv)) (leaf_paths r)
  end.

Definition is_prefix {A : Type} (p q : list A) : Prop :=
  exists r, q = p ++ r.

(** No code of the table is a prefix of the code of another symbol. *)
Definition prefix_free (encoding : dict char (list ascii)) : Prop :=
  forall c1 p1 c2 p2,
    In (c1, p1) encoding -> In (c2, p2) encoding ->
    c1 <> c2 -> ~ is_prefix p1 p2.

(** The length of the code of [c], 0 for a symbol without code. *)
Definition code_length (encoding : dict char (list ascii)) (c : char)
  : nat :=
  match dict_get encoding c with
  | Some p => length p
  | None => 0
  end.

(** The sum over the entries [c : n] of a frequency map of [n] times the
    length of the code of [c]. *)
Definition weighted_length (encoding : dict char (list ascii))
    (freq_map : dict char nat) : nat :=
  list_sum (map (fun kv => snd kv * code_length encoding (fst kv))
                (items freq_map)).

(** The state [(output, pattern)] of [decode_string_with_schema] after
    the loop. *)
Definition decode_state (string : list ascii)
    (encoding : dict char (list ascii)) : list char * list ascii :=
  fold_left (decode_step (swap_items encoding)) string ([], []).

End Vocabulary.

(** The split the scan for the marker amounts to, on the bytes of the file:
    the bytes before the first zero byte and the bytes after it. *)
Fixpoint split_at_zero (bytes : list byte) : option (list byte * list byte) :=
  match bytes with
  | [] => None
  | b :: rest =>
      if Byte.eqb b Byte.x00 then Some ([], rest)
      else
        match split_at_zero rest with
        | Some (header, payload) => Some (b :: header, payload)
        | None => None
        end
  end.

(** The error names of the specification. *)
Inductive spec_error : Type :=
| EmptyInputError
| InvalidInputError
| InvalidTreeError
| CorruptHeaderError
| DecodeError.

(** The error of the specification an exception of the script stands for.
    The script raises one error of its own, for a file without the marker
    of the header; the other exceptions are raised by built-in operations
    and stand for none. *)
Definition spec_error_of (e : exception) : option spec_error :=
  match e with
  | ValueError msg =>
      if string_dec msg "File header is corrupted or non-existent"
      then Some CorruptHeaderError else None
  | _ => None
  end.

Section Container.
Context {char : Type} `{EqDec char} `{Codec char}.

(** The bytes of the container the script writes for [data], as a function
    of [data] alone: the values [huffman_encode] and [save_to_file]
    compute, without the world. *)
Definition container (data : list char) : result (list byte) :=
  (let freq_map := frequency_map data in
   top_node <- construct_tree freq_map ;;
   encoded_string <-
     encode_string_with_schema data (get_schema top_node []) ;;
   bits <- extend null_marker encoded_string ;;
   Ok (repr_utf8 freq_map ++ tobytes bits))%result.

End Container.

Unset Implicit Arguments.

(** * Further vocabulary *)

Section TreeVocabulary.
Context {char : Type} `{EqDec char}.

(** The leaves of a tree with the values they hold, left to right. *)
Fixpoint leaf_items (t : Node char) : list (char * nat) :=
  match t with
  | Leaf v c => [(c, v)]
  | Internal _ l r => leaf_items l ++ leaf_items r
  end.

(** Every internal node holds the sum of the values of its children. *)
Fixpoint well_weighted (t : Node char) : Prop :=
  match t with
  | Leaf _ _ => True
  | Internal v l r =>
      v = value l + value r /\ well_weighted l /\ well_weighted r
  end.

(** The number of edges on the longest path from the root to a leaf. *)
Fixpoint height (t : Node char) : nat :=
  match t with
  | Leaf _ _ => 0
  | Internal _ l r => S (Nat.max (height l) (height r))
  end.

(** The order the sort of [construct_tree] establishes. *)
Definition by_value (a b : Node char) : Prop := value a <= value b.

(** The different symbols of a text, each at the place of its first
    occurrence. *)
Fixpoint first_occurrences (string : list char) : list char :=
  match string with
  | [] => []
  | c :: string' => c :: remove eq_dec c (first_occurrences string')
  end.

End TreeVocabulary.

(** [a] is the first of the nodes of least value of [l], and [rest] is [l]
    without it: the nodes before it have a greater value, the nodes after
    it a value that is not less. *)
Definition first_least {char : Type} (l : list (Node char)) (a : Node char)
    (rest : list (Node char)) : Prop :=
  exists before after,
    l = before ++ a :: after
    /\ rest = before ++ after
    /\ Forall (fun n => value a < value n) before
    /\ Forall (fun n => value a <= value n) after.

Section ScriptVocabulary.
Context {char : Type} `{EqDec char} `{Codec char}.

(** What [decompress_from_file] does once it goes on: the statements after
    the question. *)
Definition decompress_opened (file_name : String.string) : M unit :=
  (compressed <- read_file file_name ;;
   original_text <- lift (decompress_bytes compressed) ;;
   write_text (removesuffix file_name ".huff") original_text)%M.

End ScriptVocabulary.

(** A character of a string of bits. *)
Definition is_bit (c : ascii) : Prop := c = "0"%char \/ c = "1"%char.

(** A character [bitarray.extend] refuses whatever the version of the
    library: a visible ASCII character other than ["0"], ["1"] and the
    underscore. *)
Definition visible_ascii (c : ascii) : Prop :=
  33 <= nat_of_ascii c <= 126.

Definition refused_char (c : ascii) : Prop :=
  visible_ascii c /\ c <> "0"%char /\ c <> "1"%char /\ c <> "_"%char.

(** A name under which a file can be created in the directory of the
    model: not empty, not [.] or [..], at most 255 characters, none of
    them the slash or the character 0. *)
Definition plain_name (name : String.string) : bool :=
  negb (String.eqb name "") && negb (String.eqb name ".")
  && negb (String.eqb name "..")
  && (String.length name <=? 255)
  && forallb (fun c => negb (nat_of_ascii c =? 0) && negb (nat_of_ascii c =? 47))
             (list_ascii_of_string name).

(** The zero bits [tofile] adds to fill the last byte. *)
Definition padding (bits : bitarray) : bitarray :=
  repeat false ((8 - length bits mod 8) mod 8).


(** * Dictionaries: lemmas *)

Section DictLemmas.
Context {K V : Type} `{EqDec K}.
Implicit Types (d : dict K V) (k : K) (v : V).

Lemma dict_get_Some_In d k v : dict_get d k = Some v -> In (k, v) d.
Proof.
  induction d as [|[k' v'] d IH]; simpl; [discriminate|].
  destruct (eq_dec k k') as [->|Hne]; intros Hg.
  - injection Hg as ->. now left.
  - right. auto.
Qed.

Lemma dict_get_None d k : dict_get d k = None <-> ~ In k (keys d).
Proof.
  induction d as [|[k' v'] d IH]; simpl.
  - tauto.
  - destruct (eq_dec k k') as [->|Hne].
    + split; [discriminate|]. intros Hn. exfalso. apply Hn. now left.
    + rewrite IH. split.
      * intros Hn [Hk|Hk]; [congruence|tauto].
      * tauto.
Qed.

Lemma dict_get_In_keys d k :
  In k (keys d) -> exists v, dict_get d k = Some v.
Proof.
  intros Hin. destruct (dict_get d k) as [v|] eqn:E.
  - now exists v.
  - apply dict_get_None in E. contradiction.
Qed.

Lemma dict_get_wf d k v : dict_wf d -> In (k, v) d -> dict_get d k = Some v.
Proof.
  unfold dict_wf.
  induction d as [|[k' v'] d IH]; simpl; [tauto|].
  intros Hnd [Heq|Hin].
  - injection Heq as -> ->. destruct (eq_dec k k); congruence.
  - inversion Hnd as [|? ? Hnotin Hnd']; subst.
    destruct (eq_dec k k') as [->|Hne].
    + exfalso. apply Hnotin. change (In (fst (k', v)) (map fst d)).
      now apply in_map.
    + auto.
Qed.

Lemma setitem_fresh d k v :
  ~ In k (keys d) -> setitem d k v = d ++ [(k, v)].
Proof.
  induction d as [|[k' v'] d IH]; simpl; [reflexivity|].
  intros Hn. destruct (eq_dec k k') as [->|Hne].
  - exfalso. apply Hn. now left.
  - rewrite IH; [reflexivity|tauto].
Qed.

Lemma keys_setitem d k v k0 :
  In k0 (keys (setitem d k v)) <-> In k0 (keys d) \/ k0 = k.
Proof.
  induction d as [|[k' v'] d IH]; simpl.
  - intuition congruence.
  - destruct (eq_dec k k') as [->|Hne]; simpl.
    + intuition congruence.
    + rewrite IH. tauto.
Qed.

Lemma keys_update d pairs k0 :
  In k0 (keys (update d pairs)) <-> In k0 (keys d) \/ In k0 (map fst pairs).
Proof.
  unfold update. revert d.
  induction pairs as [|[k v] pairs IH]; intros d; simpl.
  - tauto.
  - rewrite IH, keys_setitem. intuition congruence.
Qed.

Lemma update_fresh d pairs :
  NoDup (map fst pairs) ->
  (forall k, In k (map fst pairs) -> ~ In k (keys d)) ->
  update d pairs = d ++ pairs.
Proof.
  unfold update. revert d.
  induction pairs as [|[k v] pairs IH]; intros d Hnd Hdis; simpl.
  - now rewrite app_nil_r.
  - inversion Hnd as [|? ? Hk Hnd']; subst.
    rewrite setitem_fresh by (apply Hdis; now left).
    rewrite IH; auto.
    + now rewrite <- app_assoc.
    + intros k0 Hk0. unfold keys. rewrite map_app, in_app_iff. simpl.
      intros [Hin|[<-|[]]]; [|contradiction].
      apply (Hdis k0); [now right|exact Hin].
Qed.

Lemma dict_get_setitem d k v k0 :
  dict_get (setitem d k v) k0 =
  if eq_dec k0 k then Some v else dict_get d k0.
Proof.
  induction d as [|[k' v'] d IH]; simpl.
  - reflexivity.
  - destruct (eq_dec k k') as [->|Hne]; simpl.
    + destruct (eq_dec k0 k'); reflexivity.
    + rewrite IH. destruct (eq_dec k0 k') as [->|]; [|reflexivity].
      destruct (eq_dec k' k); congruence.
Qed.

End DictLemmas.

(** * The tree builder: lemmas *)

Section TreeLemmas.
Context {char : Type} `{EqDec char}.
Implicit Types (t : Node char) (l : list (Node char)).

Lemma insert_by_value_perm x l : Permutation (insert_by_value x l) (x :: l).
Proof.
  induction l as [|y l IH]; simpl; [reflexivity|].
  destruct (value x <=? value y); [reflexivity|].
  rewrite IH. apply perm_swap.
Qed.

Lemma sort_by_value_perm l : Permutation (sort_by_value l) l.
Proof.
  induction l as [|x l IH]; simpl; [reflexivity|].
  rewrite insert_by_value_perm. now constructor.
Qed.

Lemma sort_by_value_length l : length (sort_by_value l) = length l.
Proof. apply Permutation_length, sort_by_value_perm. Qed.

Lemma flat_map_leaves_perm l l' :
  Permutation l l' -> Permutation (flat_map leaves l) (flat_map leaves l').
Proof.
  induction 1; simpl.
  - reflexivity.
  - now apply Permutation_app_head.
  - rewrite !app_assoc. apply Permutation_app_tail, Permutation_app_comm.
  - etransitivity; eassumption.
Qed.

(** With fuel for every merge the loop ends normally with one tree, which
    holds the leaves of the forest it started from. *)
Lemma merge_loop_spec fuel l :
  l <> [] -> length l <= S fuel ->
  exists t, merge_loop fuel l = Ok [t]
            /\ Permutation (leaves t) (flat_map leaves l).
Proof.
  revert l. induction fuel as [|fuel IH]; intros l Hne Hlen.
  - destruct l as [|t [|? ?]]; simpl in *; try congruence; try lia.
    exists t. split; [reflexivity|]. now rewrite app_nil_r.
  - simpl. destruct (1 <? length l) eqn:E.
    + apply Nat.ltb_lt in E.
      pose proof (sort_by_value_perm l) as Hp.
      pose proof (sort_by_value_length l) as Hl.
      destruct (sort_by_value l) as [|a [|b rest]]; simpl in Hl; try lia.
      simpl.
      destruct (IH (rest ++ [Internal (value a + value b) a b])) as (t & Ht & Hperm).
      * now destruct rest.
      * rewrite length_app. simpl. lia.
      * exists t. split; [exact Ht|].
        rewrite Hperm, <- (flat_map_leaves_perm _ _ Hp).
        rewrite flat_map_app. simpl. rewrite app_nil_r.
        rewrite (app_assoc (leaves a)). apply Permutation_app_comm.
    + apply Nat.ltb_ge in E.
      destruct l as [|t [|? ?]]; simpl in *; try congruence; try lia.
      exists t. split; [reflexivity|]. now rewrite app_nil_r.
Qed.

(** The leaves the builder starts from: one for every key, in the order of
    the keys. *)
Lemma initial_leaves (char_map : dict char nat) ks :
  (forall k, In k ks -> In k (keys char_map)) ->
  exists nodes,
    comprehension (fun k => v <- getitem char_map k ;; Ok (Leaf v k))%result ks
    = Ok nodes
    /\ flat_map leaves nodes = ks /\ length nodes = length ks.
Proof.
  induction ks as [|k ks IH]; intros Hin; simpl.
  - exists []. auto.
  - destruct (dict_get_In_keys char_map k) as [v Hv]; [apply Hin; now left|].
    destruct IH as (nodes & Hc & Hl & Hn); [intros; apply Hin; now right|].
    rewrite Hc. unfold getitem. rewrite Hv. simpl.
    exists (Leaf v k :: nodes). simpl. rewrite Hl, Hn. auto.
Qed.

(** [construct_tree] returns for every non-empty frequency map, and the
    leaves of its tree are the keys of the map. *)
Lemma construct_tree_leaves (char_map : dict char nat) :
  char_map <> [] ->
  exists t, construct_tree char_map = Ok t
            /\ Permutation (leaves t) (keys char_map).
Proof.
  intros Hne. unfold construct_tree.
  destruct (initial_leaves char_map (keys char_map)) as (nodes & -> & Hl & Hn);
    [auto|].
  simpl.
  destruct (merge_loop_spec (length nodes) nodes) as (t & -> & Hp).
  - destruct nodes; [|discriminate].
    destruct char_map; [congruence|discriminate].
  - lia.
  - simpl. exists t. split; [reflexivity|]. now rewrite Hp, Hl.
Qed.

Lemma construct_tree_empty : construct_tree (@nil (char * nat)) = Raise IndexError.
Proof. reflexivity. Qed.

(** ** The code table *)

Lemma keys_leaf_paths t : keys (leaf_paths t) = leaves t.
Proof.
  unfold keys. induction t as [|? l IHl r IHr]; simpl; [reflexivity|].
  rewrite map_app, !map_map. simpl.
  f_equal; [rewrite <- IHl|rewrite <- IHr]; now apply map_ext.
Qed.

Lemma values_leaf_paths t : values (leaf_paths t) = root_to_leaf_paths t.
Proof.
  unfold values. induction t as [|? l IHl r IHr]; simpl; [reflexivity|].
  rewrite map_app, !map_map. simpl.
  rewrite <- IHl, <- IHr, !map_map. reflexivity.
Qed.

(** On a tree whose leaves hold different symbols the union of the two
    sub-tables overwrites nothing: the table lists the leaves left to
    right, each with [pattern] followed by its path. *)
Lemma get_schema_leaf_paths t pattern :
  NoDup (leaves t) ->
  get_schema t pattern
  = map (fun kv => (fst kv, pattern ++ snd kv)) (leaf_paths t).
Proof.
  revert pattern. induction t as [|? l IHl r IHr]; intros pattern Hnd; simpl.
  - now rewrite app_nil_r.
  - simpl in Hnd.
    pose proof (NoDup_app_remove_r _ _ Hnd) as Hl.
    pose proof (NoDup_app_remove_l _ _ Hnd) as Hr.
    rewrite IHl, IHr by assumption.
    unfold dict_or, items. rewrite update_fresh.
    + rewrite map_app, !map_map. simpl.
      f_equal; apply map_ext; intros [c p]; simpl;
        now rewrite <- app_assoc.
    + rewrite map_map. simpl. change (NoDup (keys (leaf_paths r))).
      now rewrite keys_leaf_paths.
    + intros k. unfold keys. rewrite !map_map. simpl.
      change (In k (keys (leaf_paths r)) -> ~ In k (keys (leaf_paths l))).
      rewrite !keys_leaf_paths. intros Hkr Hkl.
      revert k Hkl Hkr. clear -Hnd.
      induction (leaves l) as [|a la IH]; simpl in *; [tauto|].
      inversion Hnd as [|? ? Ha Hnd']; subst.
      intros k [->|Hkl] Hkr.
      * apply Ha, in_or_app. now right.
      * eapply IH; eassumption.
Qed.

Lemma keys_get_schema t pattern k :
  In k (keys (get_schema t pattern)) <-> In k (leaves t).
Proof.
  revert pattern. induction t as [|? l IHl r IHr]; intros pattern; simpl.
  - tauto.
  - unfold dict_or, items. rewrite keys_update, in_app_iff.
    change (map fst (get_schema r (pattern ++ ["1"%char])))
      with (keys (get_schema r (pattern ++ ["1"%char]))).
    now rewrite IHl, IHr.
Qed.

Lemma is_prefix_cons_inv (a b : ascii) (p q : list ascii) :
  is_prefix (a :: p) (b :: q) -> a = b /\ is_prefix p q.
Proof.
  intros [r Hr]. simpl in Hr. injection Hr as -> ->. split; [reflexivity|].
  now exists r.
Qed.

Lemma leaf_paths_prefix_free t :
  NoDup (leaves t) -> prefix_free (leaf_paths t).
Proof.
  induction t as [|? l IHl r IHr]; intros Hnd c1 p1 c2 p2 H1 H2 Hne Hpre;
    simpl in *.
  - destruct H1 as [H1|[]], H2 as [H2|[]]. congruence.
  - pose proof (NoDup_app_remove_r _ _ Hnd) as Hl.
    pose proof (NoDup_app_remove_l _ _ Hnd) as Hr.
    apply in_app_iff in H1, H2.
    destruct H1 as [H1|H1], H2 as [H2|H2];
      apply in_map_iff in H1, H2;
      destruct H1 as ([c1' q1] & E1 & H1), H2 as ([c2' q2] & E2 & H2);
      simpl in E1, E2; injection E1 as <- <-; injection E2 as <- <-;
      apply is_prefix_cons_inv in Hpre; destruct Hpre as [Hb Hpre];
      try discriminate.
    + exact (IHl Hl _ _ _ _ H1 H2 Hne Hpre).
    + exact (IHr Hr _ _ _ _ H1 H2 Hne Hpre).
Qed.

End TreeLemmas.

(** * The code table of a frequency map *)

Section CodeTable.
Context {char : Type} `{EqDec char}.

(** C9.  For every non-empty frequency map [char_map], [construct_tree]
    returns a tree, and the code table [get_schema] derives from it has
    exactly the keys of [char_map] as its keys: every symbol of the map
    has a code and no other symbol has one. *)
Theorem schema_domain_is_key_set (char_map : dict char nat) :
  char_map <> [] ->
  exists top_node,
    construct_tree char_map = Ok top_node
    /\ (forall c, In c (keys (get_schema top_node [])) <-> In c (keys char_map))
    /\ (forall c, In c (keys char_map) ->
                  exists code, getitem (get_schema top_node []) c = Ok code).
Proof.
  intros Hne.
  destruct (construct_tree_leaves char_map Hne) as (t & Ht & Hperm).
  exists t. split; [exact Ht|].
  assert (Hdom : forall c, In c (keys (get_schema t [])) <-> In c (keys char_map)).
  { intros c. rewrite keys_get_schema. split; intros Hc.
    - eapply Permutation_in; eassumption.
    - eapply Permutation_in; [symmetry|]; eassumption. }
  split; [exact Hdom|].
  intros c Hc. apply Hdom in Hc.
  destruct (dict_get_In_keys _ _ Hc) as [code Hcode].
  exists code. unfold getitem. now rewrite Hcode.
Qed.

(** C4.  For every non-empty frequency map, the code table generated from
    the tree built for it is prefix-free — no code is a prefix of the
    code of another symbol — and its codes are exactly the root-to-leaf
    paths of the tree, ["0"] for left and ["1"] for right. *)
Theorem schema_prefix_free_and_paths (char_map : dict char nat) :
  dict_wf char_map -> char_map <> [] ->
  exists top_node,
    construct_tree char_map = Ok top_node
    /\ prefix_free (get_schema top_node [])
    /\ (forall p, In p (values (get_schema top_node []))
                  <-> In p (root_to_leaf_paths top_node)).
Proof.
  intros Hwf Hne.
  destruct (construct_tree_leaves char_map Hne) as (t & Ht & Hperm).
  exists t. split; [exact Ht|].
  assert (Hnd : NoDup (leaves t)).
  { eapply Permutation_NoDup; [symmetry; exact Hperm|exact Hwf]. }
  assert (Hs : get_schema t [] = leaf_paths t).
  { rewrite get_schema_leaf_paths by exact Hnd.
    rewrite <- (map_id (leaf_paths t)) at 2.
    apply map_ext. now intros [c p]. }
  rewrite Hs. split.
  - now apply leaf_paths_prefix_free.
  - intros p. now rewrite values_leaf_paths.
Qed.

End CodeTable.

(** The frequency map of ["aabbbc"], on which the theorems above are
    instantiated. *)
Lemma schema_domain_is_key_set_witness :
  exists top_node,
    construct_tree [("a"%char, 2); ("b"%char, 3); ("c"%char, 1)] = Ok top_node
    /\ (forall c, In c (keys (get_schema top_node []))
                  <-> In c ["a"%char; "b"%char; "c"%char])
    /\ (forall c, In c ["a"%char; "b"%char; "c"%char] ->
                  exists code, getitem (get_schema top_node []) c = Ok code).
Proof.
  apply (schema_domain_is_key_set [("a"%char, 2); ("b"%char, 3); ("c"%char, 1)]).
  discriminate.
Defined.

Lemma schema_prefix_free_and_paths_witness :
  exists top_node,
    construct_tree [("a"%char, 2); ("b"%char, 3); ("c"%char, 1)] = Ok top_node
    /\ prefix_free (get_schema top_node [])
    /\ (forall p, In p (values (get_schema top_node []))
                  <-> In p (root_to_leaf_paths top_node)).
Proof.
  apply (schema_prefix_free_and_paths
           [("a"%char, 2); ("b"%char, 3); ("c"%char, 1)]).
  - unfold dict_wf. simpl. repeat constructor; simpl; intuition discriminate.
  - discriminate.
Defined.

(** * Encoding *)

Section Encoding.
Context {char : Type} `{EqDec char}.
Implicit Types (encoding : dict char (list ascii)) (string : list char).

Lemma comprehension_app {A B : Type} (f : A -> result B) (l1 l2 : list A) :
  comprehension f (l1 ++ l2)
  = (a <- comprehension f l1 ;; b <- comprehension f l2 ;; Ok (a ++ b))%result.
Proof.
  induction l1 as [|x l1 IH]; simpl.
  - now destruct (comprehension f l2).
  - destruct (f x); simpl; [|reflexivity].
    rewrite IH. destruct (comprehension f l1); simpl; [|reflexivity].
    now destruct (comprehension f l2).
Qed.

(** The lookups of the encoder succeed on a string of symbols of the table,
    and the codes found have the lengths [code_length] gives. *)
Lemma comprehension_getitem encoding string :
  (forall c, In c string -> In c (keys encoding)) ->
  exists output,
    comprehension (getitem encoding) string = Ok output
    /\ length (concat output) = list_sum (map (code_length encoding) string).
Proof.
  induction string as [|c string IH]; intros Hdom; simpl.
  - now exists [].
  - destruct (dict_get_In_keys encoding c) as [p Hp]; [apply Hdom; now left|].
    destruct IH as (output & -> & Hlen); [intros; apply Hdom; now right|].
    unfold getitem, code_length. rewrite Hp. simpl.
    exists (p :: output). split; [reflexivity|].
    simpl. now rewrite length_app, Hlen.
Qed.

Lemma weighted_length_app encoding (d1 d2 : dict char nat) :
  weighted_length encoding (d1 ++ d2)
  = weighted_length encoding d1 + weighted_length encoding d2.
Proof.
  unfold weighted_length, items. now rewrite map_app, list_sum_app.
Qed.

Lemma weighted_length_incr encoding (d : dict char nat) c n :
  dict_get d c = Some n ->
  weighted_length encoding (setitem d c (n + 1))
  = weighted_length encoding d + code_length encoding c.
Proof.
  unfold weighted_length, items.
  induction d as [|[k v] d IH]; simpl; [discriminate|].
  destruct (eq_dec c k) as [->|Hne]; intros Hg; simpl.
  - injection Hg as ->. lia.
  - rewrite IH by exact Hg. lia.
Qed.

Lemma weighted_length_count_char encoding (d : dict char nat) c :
  weighted_length encoding (count_char d c)
  = weighted_length encoding d + code_length encoding c.
Proof.
  unfold count_char. destruct (dict_get d c) as [n|] eqn:E.
  - now apply weighted_length_incr.
  - apply dict_get_None in E. rewrite setitem_fresh by exact E.
    rewrite weighted_length_app. unfold weighted_length at 2. simpl. lia.
Qed.

Lemma weighted_length_fold encoding string (d : dict char nat) :
  weighted_length encoding (fold_left count_char string d)
  = weighted_length encoding d + list_sum (map (code_length encoding) string).
Proof.
  revert d. induction string as [|c string IH]; intros d; simpl.
  - lia.
  - rewrite IH, weighted_length_count_char. lia.
Qed.

(** The length of the encoding of a string is the weighted sum of the code
    lengths over its frequency map. *)
Lemma encode_length encoding string :
  (forall c, In c string -> In c (keys encoding)) ->
  exists encoded,
    encode_string_with_schema string encoding = Ok encoded
    /\ length encoded = weighted_length encoding (frequency_map string).
Proof.
  intros Hdom. unfold encode_string_with_schema, frequency_map.
  destruct (comprehension_getitem encoding string Hdom) as (output & -> & Hlen).
  simpl. exists (concat output). split; [reflexivity|].
  rewrite weighted_length_fold, Hlen. reflexivity.
Qed.

(** C10.  [encode_string_with_schema] preserves concatenation: for strings
    [s1] and [s2] of symbols of the code table, the encoding of [s1 ++ s2]
    is the encoding of [s1] followed by the encoding of [s2]; and the
    length of the encoding of such a string is the sum, over the entries
    of its frequency map, of the frequency of the symbol times the length
    of its code. *)
Theorem encode_concatenation encoding (s1 s2 : list char) :
  (forall c, In c (s1 ++ s2) -> In c (keys encoding)) ->
  exists e1 e2,
    encode_string_with_schema s1 encoding = Ok e1
    /\ encode_string_with_schema s2 encoding = Ok e2
    /\ encode_string_with_schema (s1 ++ s2) encoding = Ok (e1 ++ e2)
    /\ length e1 = weighted_length encoding (frequency_map s1)
    /\ length e2 = weighted_length encoding (frequency_map s2)
    /\ length (e1 ++ e2) = weighted_length encoding (frequency_map (s1 ++ s2)).
Proof.
  intros Hdom.
  assert (H1 : forall c, In c s1 -> In c (keys encoding))
    by (intros; apply Hdom, in_or_app; now left).
  assert (H2 : forall c, In c s2 -> In c (keys encoding))
    by (intros; apply Hdom, in_or_app; now right).
  destruct (encode_length encoding s1 H1) as (e1 & He1 & Hl1).
  destruct (encode_length encoding s2 H2) as (e2 & He2 & Hl2).
  destruct (encode_length encoding (s1 ++ s2) Hdom) as (e & He & Hl).
  exists e1, e2. repeat split; try assumption.
  - unfold encode_string_with_schema in *. rewrite comprehension_app.
    destruct (comprehension (getitem encoding) s1); [|discriminate].
    destruct (comprehension (getitem encoding) s2); [|discriminate].
    simpl in *. injection He1 as <-. injection He2 as <-.
    now rewrite concat_app.
  - rewrite <- Hl. unfold encode_string_with_schema in *.
    rewrite comprehension_app in He.
    destruct (comprehension (getitem encoding) s1); [|discriminate].
    destruct (comprehension (getitem encoding) s2); [|discriminate].
    simpl in *. injection He1 as <-. injection He2 as <-. injection He as <-.
    now rewrite concat_app.
Qed.

End Encoding.

Lemma encode_concatenation_witness :
  let encoding :=
    [("b", ["0"]); ("c", ["1"; "0"]); ("a", ["1"; "1"])]%char in
  exists e1 e2,
    encode_string_with_schema ["a"; "a"; "b"]%char encoding = Ok e1
    /\ encode_string_with_schema ["b"; "b"; "c"]%char encoding = Ok e2
    /\ encode_string_with_schema ["a"; "a"; "b"; "b"; "b"; "c"]%char encoding
       = Ok (e1 ++ e2)
    /\ length e1 = weighted_length encoding (frequency_map ["a"; "a"; "b"]%char)
    /\ length e2 = weighted_length encoding (frequency_map ["b"; "b"; "c"]%char)
    /\ length (e1 ++ e2)
       = weighted_length encoding
           (frequency_map ["a"; "a"; "b"; "b"; "b"; "c"]%char).
Proof.
  intros encoding.
  apply (encode_concatenation encoding ["a"; "a"; "b"]%char ["b"; "b"; "c"]%char).
  simpl. intros c Hc. intuition.
Defined.

(** * Decoding *)

Section Decoding.
Context {char : Type} `{EqDec char}.
Implicit Types (encoding : dict char (list ascii)).

(** The patterns the decoder matches are the codes of the table. *)
Lemma swap_items_None encoding (pattern : list ascii) :
  dict_get (swap_items encoding) pattern = None
  <-> ~ In pattern (values encoding).
Proof.
  rewrite dict_get_None. unfold swap_items, dict_of, items.
  rewrite keys_update, map_map. simpl. unfold values.
  rewrite (map_ext (fun x : char * list ascii => snd x) snd) by reflexivity.
  tauto.
Qed.

(** Bits that complete no code leave the output as it is and pile up in
    the pattern. *)
Lemma decode_loop_no_match (inverse : dict (list ascii) char)
    (trailing : list ascii) (output : list char) (pattern : list ascii) :
  (forall code, code <> [] -> is_prefix code trailing ->
                dict_get inverse (pattern ++ code) = None) ->
  fold_left (decode_step inverse) trailing (output, pattern)
  = (output, pattern ++ trailing).
Proof.
  revert pattern. induction trailing as [|c trailing IH]; intros pattern Hno.
  - simpl. now rewrite app_nil_r.
  - simpl. rewrite (Hno [c]); [|discriminate|now exists trailing].
    rewrite IH.
    + now rewrite <- app_assoc.
    + intros code Hne [r Hr]. rewrite <- app_assoc. simpl.
      apply Hno; [discriminate|]. exists r. simpl. now rewrite Hr.
Qed.

(** C6 (amended).  [decode_string_with_schema] returns for every bitstream
    and code table.  Bits that remain after the last complete match and
    complete no code are dropped without an error: the output is the
    output for the stream without them, and they are what is left in the
    pattern when the loop ends. *)
Theorem decode_drops_trailing_bits encoding (string trailing : list ascii) :
  snd (decode_state string encoding) = [] ->
  (forall code, code <> [] -> is_prefix code trailing ->
                ~ In code (values encoding)) ->
  decode_string_with_schema (string ++ trailing) encoding
  = decode_string_with_schema string encoding
  /\ snd (decode_state (string ++ trailing) encoding) = trailing.
Proof.
  intros Hempty Hno.
  unfold decode_string_with_schema, decode_state in *.
  rewrite fold_left_app.
  destruct (fold_left (decode_step (swap_items encoding)) string ([], []))
    as [output pattern].
  simpl in Hempty. subst pattern.
  rewrite decode_loop_no_match.
  - split; reflexivity.
  - intros code Hne Hpre. simpl. apply swap_items_None. now apply Hno.
Qed.

End Decoding.

Lemma decode_drops_trailing_bits_witness :
  let encoding :=
    [("b", ["0"]); ("c", ["1"; "0"]); ("a", ["1"; "1"])]%char in
  decode_string_with_schema (["1"; "1"; "0"] ++ ["1"])%char encoding
  = decode_string_with_schema ["1"; "1"; "0"]%char encoding
  /\ snd (decode_state (["1"; "1"; "0"] ++ ["1"])%char encoding) = ["1"%char].
Proof.
  intros encoding.
  apply (decode_drops_trailing_bits encoding ["1"; "1"; "0"]%char ["1"%char]).
  - reflexivity.
  - intros code Hne [r Hr] Hin.
    destruct code as [|a [|b code]]; [congruence| |discriminate].
    injection Hr as <- _. simpl in Hin.
    intuition discriminate.
Defined.

(** C6, as stated, fails: with the codes ["0"] and ["11"] the stream ["01"]
    ends in a bit that completes no code, and the decoder returns ["a"]. *)
Lemma decode_leftover_bit_not_reported :
  let encoding := [("a", ["0"]); ("b", ["1"; "1"])]%char in
  decode_string_with_schema ["0"; "1"]%char encoding = ["a"%char]
  /\ snd (decode_state ["0"; "1"]%char encoding) = ["1"%char]
  /\ ~ In ["1"%char] (values encoding).
Proof.
  intros encoding. repeat split.
  simpl. intuition discriminate.
Qed.

(** * The marker of the header *)

Lemma length_bits_of_byte (b : byte) : length (bits_of_byte b) = 8.
Proof.
  unfold bits_of_byte.
  destruct (Byte.to_bits b) as (b0 & b1 & b2 & b3 & b4 & b5 & b6 & b7).
  reflexivity.
Qed.

Lemma length_frombytes (bytes : list byte) :
  length (frombytes bytes) = 8 * length bytes.
Proof.
  induction bytes as [|b bytes IH]; [reflexivity|].
  unfold frombytes in *. simpl.
  rewrite length_app, length_bits_of_byte, IH. lia.
Qed.

(** The marker is the byte zero, and no other byte. *)
Lemma bits_of_byte_marker (b : byte) :
  bitarray_eqb (bits_of_byte b) null_marker = Byte.eqb b Byte.x00.
Proof. destruct b; reflexivity. Qed.

Lemma skipn_past_byte (b : byte) (bits : bitarray) (i : nat) :
  skipn (8 + i) (bits_of_byte b ++ bits) = skipn i bits.
Proof.
  rewrite skipn_app, length_bits_of_byte.
  rewrite skipn_all2 by (rewrite length_bits_of_byte; lia).
  simpl. f_equal. lia.
Qed.

Lemma slice_past_byte (b : byte) (bits : bitarray) (i j : nat) :
  slice (bits_of_byte b ++ bits) (8 + i) (8 + j) = slice bits i j.
Proof.
  unfold slice. rewrite skipn_past_byte. f_equal.
Qed.

Lemma slice_first_byte (b : byte) (bits : bitarray) :
  slice (bits_of_byte b ++ bits) 0 8 = bits_of_byte b.
Proof.
  unfold bits_of_byte.
  destruct (Byte.to_bits b) as (b0 & b1 & b2 & b3 & b4 & b5 & b6 & b7).
  reflexivity.
Qed.

Lemma find_map_S (f : nat -> bool) (l : list nat) :
  find f (map S l) = option_map S (find (fun i => f (S i)) l).
Proof.
  induction l as [|i l IH]; simpl; [reflexivity|].
  destruct (f (S i)); [reflexivity|exact IH].
Qed.

Lemma find_pointwise (f g : nat -> bool) (l : list nat) :
  (forall i, f i = g i) -> find f l = find g l.
Proof.
  intros Hfg. induction l as [|i l IH]; simpl; [reflexivity|].
  rewrite Hfg, IH. reflexivity.
Qed.

(** The scan over the bits of a file is the split of its bytes at the
    first zero byte. *)
Lemma find_header_split (bytes : list byte) :
  find_header (frombytes bytes)
  = match split_at_zero bytes with
    | Some (header, payload) => Some (frombytes header, frombytes payload)
    | None => None
    end.
Proof.
  unfold find_header. rewrite length_frombytes.
  replace (8 * length bytes / 8) with (length bytes)
    by (rewrite Nat.mul_comm, Nat.div_mul; [reflexivity|discriminate]).
  induction bytes as [|b bytes IH]; [reflexivity|].
  change (frombytes (b :: bytes)) with (bits_of_byte b ++ frombytes bytes).
  cbn [length seq find split_at_zero].
  change (0 * 8) with 0. change (0 + 8) with 8.
  rewrite slice_first_byte.
  rewrite bits_of_byte_marker.
  destruct (Byte.eqb b Byte.x00).
  - cbv beta iota. change (0 * 8) with 0. change (0 + 8) with (8 + 0).
    rewrite skipn_past_byte. reflexivity.
  - rewrite <- seq_shift, find_map_S.
    rewrite (find_pointwise _
               (fun i => bitarray_eqb
                           (slice (frombytes bytes) (i * 8) (i * 8 + 8))
                           null_marker)).
    2:{ intros i. f_equal.
        replace (S i * 8) with (8 + i * 8) by lia.
        replace (8 + i * 8 + 8) with (8 + (i * 8 + 8)) by lia.
        apply slice_past_byte. }
    destruct (find _ (seq 0 (length bytes))) as [i|]; cbn [option_map].
    + destruct (split_at_zero bytes) as [[header payload]|]; [|discriminate].
      injection IH as IH1 IH2.
      replace (S i * 8) with (8 + i * 8) by lia.
      replace (8 + i * 8 + 8) with (8 + (i * 8 + 8)) by lia.
      rewrite skipn_past_byte, IH2. f_equal. f_equal.
      unfold slice in *. simpl skipn in *. rewrite Nat.sub_0_r in *.
      change (frombytes (b :: header)) with (bits_of_byte b ++ frombytes header).
      rewrite <- IH1, firstn_app, length_bits_of_byte.
      rewrite firstn_all2 by (rewrite length_bits_of_byte; lia).
      replace (8 + i * 8 - 8) with (i * 8) by lia. reflexivity.
    + destruct (split_at_zero bytes) as [[header payload]|];
        [discriminate|reflexivity].
Qed.

Lemma split_at_zero_marker (header payload : list byte) :
  ~ In Byte.x00 header ->
  split_at_zero (header ++ Byte.x00 :: payload) = Some (header, payload).
Proof.
  induction header as [|b header IH]; intros Hno; simpl.
  - reflexivity.
  - destruct (Byte.eqb b Byte.x00) eqn:E.
    + apply Byte.byte_dec_bl in E. exfalso. apply Hno. now left.
    + rewrite IH; [reflexivity|]. intros Hin. apply Hno. now right.
Qed.

Lemma split_at_zero_none (bytes : list byte) :
  ~ In Byte.x00 bytes -> split_at_zero bytes = None.
Proof.
  induction bytes as [|b bytes IH]; intros Hno; simpl; [reflexivity|].
  destruct (Byte.eqb b Byte.x00) eqn:E.
  - apply Byte.byte_dec_bl in E. exfalso. apply Hno. now left.
  - rewrite IH; [reflexivity|]. intros Hin. apply Hno. now right.
Qed.

(** C3 (amended).  The format delimits the header from the payload by a
    zero byte: the scan takes the bytes before the first zero byte of the
    file as the header and the bytes after it as the payload.  When the
    serialized frequency table holds no zero byte, the header found is the
    serialized table and the rest is the payload, whatever bytes, zero
    included, the payload holds. *)
Theorem marker_delimits_header (header payload : list byte) :
  ~ In Byte.x00 header ->
  find_header (frombytes (header ++ Byte.x00 :: payload))
  = Some (frombytes header, frombytes payload).
Proof.
  intros Hno. rewrite find_header_split.
  now rewrite split_at_zero_marker.
Qed.

Lemma marker_delimits_header_witness :
  let header := repr_utf8 [("a"%char, 2); ("b"%char, 1)] in
  find_header (frombytes (header ++ Byte.x00 :: [Byte.x00; Byte.xc0]))
  = Some (frombytes header, frombytes [Byte.x00; Byte.xc0]).
Proof.
  intros header.
  apply (marker_delimits_header header [Byte.x00; Byte.xc0]).
  vm_compute. intuition discriminate.
Defined.

(** C3, as stated, fails: the boundary of the header is found by the value
    of a byte.  A zero byte among the bytes written as the header ends the
    header there. *)
Lemma zero_byte_in_header_is_read_as_marker :
  let header := [Byte.x7b; Byte.x00; Byte.x7d] in
  let payload := [Byte.xc0] in
  find_header (frombytes (header ++ Byte.x00 :: payload))
  = Some (frombytes [Byte.x7b], frombytes [Byte.x7d; Byte.x00; Byte.xc0])
  /\ find_header (frombytes (header ++ Byte.x00 :: payload))
     <> Some (frombytes header, frombytes payload).
Proof.
  split; [reflexivity|]. vm_compute. discriminate.
Qed.

(** * Truncated files *)

Section Truncation.
Context {char : Type} `{EqDec char} `{Codec char}.

Lemma In_firstn {A : Type} (x : A) (n : nat) (l : list A) :
  In x (firstn n l) -> In x l.
Proof.
  intros Hin. rewrite <- (firstn_skipn n l). apply in_or_app. now left.
Qed.

(** C7 (amended).  A container cut at or before the marker of its header,
    where the serialized frequency table holds no zero byte, is refused:
    [decompress_from_file] raises its [ValueError] for a corrupted header,
    the one error of the script that stands for [CorruptHeaderError]. *)
Theorem truncated_header_rejected
    (header payload : list byte) (n : nat) :
  ~ In Byte.x00 header -> n <= length header ->
  decompress_bytes (firstn n (header ++ Byte.x00 :: payload))
  = Raise (ValueError "File header is corrupted or non-existent")
  /\ spec_error_of (ValueError "File header is corrupted or non-existent")
     = Some CorruptHeaderError.
Proof.
  intros Hno Hn. split; [|reflexivity].
  unfold decompress_bytes. rewrite find_header_split.
  rewrite firstn_app.
  replace (n - length header) with 0 by lia.
  simpl firstn. rewrite app_nil_r.
  rewrite split_at_zero_none; [reflexivity|].
  intros Hin. apply Hno. eapply In_firstn. exact Hin.
Qed.

End Truncation.

Lemma truncated_header_rejected_witness :
  let header := repr_utf8 [("a"%char, 2); ("b"%char, 3); ("c"%char, 1)] in
  decompress_bytes
    (firstn 10 (header ++ Byte.x00 :: [Byte.xf1; Byte.x00]))
  = Raise (ValueError "File header is corrupted or non-existent")
  /\ spec_error_of (ValueError "File header is corrupted or non-existent")
     = Some CorruptHeaderError.
Proof.
  intros header.
  apply (truncated_header_rejected header [Byte.xf1; Byte.x00] 10).
  - vm_compute. intuition discriminate.
  - vm_compute. lia.
Defined.

(** C7, as stated, fails: the container of ["aabbbc"] without its last
    byte is decoded, to ["aabbb"], and no error is raised. *)
Lemma truncated_payload_is_decoded :
  let data := list_ascii_of_string "aabbbc" in
  exists compressed,
    container data = Ok compressed
    /\ decompress_bytes (firstn (length compressed - 1) compressed)
       = Ok (list_ascii_of_string "aabbb").
Proof.
  eexists. split; [vm_compute; reflexivity|]. vm_compute. reflexivity.
Qed.

(** * The runs of the script *)

Section Runs.
Context {char : Type} `{EqDec char} `{Codec char}.

Lemma write_file_same (name : string) (data : list byte)
    (fs : string -> option (list byte)) :
  write_file name data fs name = Some data.
Proof. unfold write_file. destruct (string_dec name name); congruence. Qed.

Lemma overwrite_empty (data : list byte) : overwrite [] 0 data = data.
Proof.
  unfold overwrite. simpl. rewrite skipn_nil. apply app_nil_r.
Qed.

Lemma overwrite_end (old data : list byte) :
  overwrite old (length old) data = old ++ data.
Proof.
  unfold overwrite. rewrite firstn_all, skipn_all2 by lia.
  now rewrite app_nil_r.
Qed.

(** What [save_to_file] leaves: the file holds the serialized map, the
    zero byte and the packed bits, whatever it held before. *)
Lemma save_to_file_run (string : list ascii) (character_map : dict char nat)
    (file_name : String.string) (w : world) (bits : bitarray) :
  extend null_marker string = Ok bits ->
  fst (save_to_file string character_map file_name w) = Ok tt
  /\ files (snd (save_to_file string character_map file_name w))
           (file_name ++ ".huff")
     = Some (repr_utf8 character_map ++ tobytes bits).
Proof.
  intros Hbits. unfold save_to_file, bind, lift, open_w_close, write_at, ret.
  rewrite Hbits. cbn [files set_files].
  rewrite write_file_same. cbn [files set_files fst snd].
  rewrite write_file_same. cbn [files set_files fst snd].
  split; [reflexivity|].
  rewrite write_file_same, overwrite_empty. simpl.
  now rewrite overwrite_end.
Qed.

Lemma save_to_file_raise (string : list ascii) (character_map : dict char nat)
    (file_name : String.string) (w : world) (e : exception) :
  extend null_marker string = Raise e ->
  save_to_file string character_map file_name w = (Raise e, w).
Proof.
  intros Hbits. unfold save_to_file, bind, lift. now rewrite Hbits.
Qed.

Lemma bind_run {A B : Type} (m : M A) (k : A -> M B) (w : world) :
  bind m k w
  = match m w with
    | (Ok a, w') => k a w'
    | (Raise e, w') => (Raise e, w')
    end.
Proof. reflexivity. Qed.

Lemma keeps_files_bind {A B : Type} (m : M A) (k : A -> M B)
    (r : result A) (r' : result B) :
  keeps_files m r ->
  match r with
  | Ok a => keeps_files (k a) r'
  | Raise e => r' = Raise e
  end ->
  keeps_files (bind m k) r'.
Proof.
  intros Hm Hk w. unfold bind.
  destruct (Hm w) as [Hr Hf]. destruct (m w) as [ra w']. simpl in Hr, Hf.
  subst ra. destruct r as [a|e].
  - destruct (Hk w') as [Hr' Hf']. split; [exact Hr'|congruence].
  - subst r'. split; [reflexivity|exact Hf].
Qed.

Lemma keeps_files_ret {A : Type} (a : A) : keeps_files (ret a) (Ok a).
Proof. intros w. split; reflexivity. Qed.

Lemma keeps_files_lift {A : Type} (r : result A) : keeps_files (lift r) r.
Proof. intros w. split; reflexivity. Qed.

Lemma keeps_files_print (line : String.string) :
  keeps_files (print line) (Ok tt).
Proof. intros w. split; reflexivity. Qed.

Lemma keeps_files_stopwatch : keeps_files stopwatch (Ok tt).
Proof. intros w. split; reflexivity. Qed.

(** One statement that prints or logs. *)
Ltac silent_step :=
  eapply keeps_files_bind;
  [first [apply keeps_files_print | apply keeps_files_stopwatch]
  |cbv beta iota zeta].

(** [huffman_encode] touches no file, and its result is a function of the
    text. *)
Lemma huffman_encode_keeps_files (string : list char) :
  keeps_files (huffman_encode string)
    (top_node <- construct_tree (frequency_map string) ;;
     encoded_string <-
       encode_string_with_schema string (get_schema top_node []) ;;
     Ok (get_schema top_node [], encoded_string, frequency_map string))%result.
Proof.
  unfold huffman_encode.
  eapply keeps_files_bind with (r := Ok (frequency_map string)).
  { unfold generate_frequency_map. repeat silent_step. apply keeps_files_ret. }
  cbv beta iota. silent_step.
  eapply keeps_files_bind; [apply keeps_files_lift|].
  destruct (construct_tree (frequency_map string)) as [top_node|e];
    [|reflexivity].
  cbn [rbind]. repeat silent_step.
  eapply keeps_files_bind; [apply keeps_files_lift|].
  destruct (encode_string_with_schema string (get_schema top_node []))
    as [encoded_string|e]; [|reflexivity].
  cbn [rbind]. repeat silent_step. apply keeps_files_ret.
Qed.

(** The run of the compressing statements: the result and the container
    are those of [container], a function of the text alone. *)
Lemma main_compress_run (data : list char) (test_file : String.string)
    (w : world) :
  match container data with
  | Ok compressed =>
      fst (main_compress data test_file w) = Ok tt
      /\ files (snd (main_compress data test_file w)) (test_file ++ ".huff")
         = Some compressed
  | Raise e =>
      fst (main_compress data test_file w) = Raise e
      /\ files (snd (main_compress data test_file w)) = files w
  end.
Proof.
  unfold container, main_compress. rewrite bind_run.
  destruct (huffman_encode_keeps_files data w) as [Hr Hf].
  destruct (huffman_encode data w) as [r w']. cbn [fst snd] in Hr, Hf.
  subst r.
  destruct (construct_tree (frequency_map data)) as [top_node|e];
    cbn [rbind]; [|split; [reflexivity|exact Hf]].
  destruct (encode_string_with_schema data (get_schema top_node []))
    as [encoded_string|e]; cbn [rbind]; [|split; [reflexivity|exact Hf]].
  rewrite bind_run. unfold print. cbv beta iota.
  destruct (extend null_marker encoded_string) as [bits|e] eqn:Hbits;
    cbn [rbind].
  - apply save_to_file_run. exact Hbits.
  - rewrite save_to_file_raise with (e := e) by exact Hbits.
    split; [reflexivity|exact Hf].
Qed.

(** The tie-break of the tree builder: the sort keeps nodes of equal value
    in the order they have in the list. *)
Lemma insert_by_value_stable (v : nat) (x : Node char) (l : list (Node char)) :
  filter (fun n => value n =? v) (insert_by_value x l)
  = filter (fun n => value n =? v) (x :: l).
Proof.
  induction l as [|y l IH]; [reflexivity|].
  simpl. destruct (value x <=? value y) eqn:E; [reflexivity|].
  apply Nat.leb_gt in E. simpl. rewrite IH. simpl.
  destruct (value x =? v) eqn:Ex, (value y =? v) eqn:Ey; try reflexivity.
  apply Nat.eqb_eq in Ex, Ey. lia.
Qed.

Lemma sort_by_value_stable (v : nat) (l : list (Node char)) :
  filter (fun n => value n =? v) (sort_by_value l)
  = filter (fun n => value n =? v) l.
Proof.
  induction l as [|x l IH]; [reflexivity|].
  simpl sort_by_value. rewrite insert_by_value_stable. simpl.
  now rewrite IH.
Qed.

(** C5 (amended).  Compressing the empty text fails with the [IndexError]
    of [ascending_keys[0]] in [construct_tree], which building a tree from
    the empty frequency map raises; no container is written. *)
Theorem empty_input_raises_IndexError (test_file : String.string) (w : world) :
  construct_tree (@nil (char * nat)) = Raise IndexError
  /\ fst (huffman_encode (@nil char) w) = Raise IndexError
  /\ fst (main_compress (@nil char) test_file w) = Raise IndexError
  /\ files (snd (main_compress (@nil char) test_file w)) = files w.
Proof.
  split; [reflexivity|]. split.
  - apply (huffman_encode_keeps_files []).
  - apply (main_compress_run [] test_file w).
Qed.

End Runs.

(** C5, as stated, fails: the exception of the run on the empty text is
    none of the errors the script defines, so not [EmptyInputError]. *)
Lemma empty_input_error_is_not_defined :
  ~ exists e,
      fst (main_compress (@nil ascii) "fib41" Latin1.empty_world) = Raise e
      /\ spec_error_of e = Some EmptyInputError.
Proof.
  intros (e & He & Hs). vm_compute in He. injection He as <-.
  discriminate.
Qed.

(** * A text of one symbol *)

Section SingleSymbol.
Context {char : Type} `{EqDec char}.

Lemma count_repeat (c : char) (k m : nat) :
  fold_left count_char (repeat c k) [(c, m)] = [(c, m + k)].
Proof.
  revert m. induction k as [|k IH]; intros m; simpl.
  - now rewrite Nat.add_0_r.
  - unfold count_char at 2. simpl.
    destruct (eq_dec c c) as [_|Hne]; [|congruence].
    simpl. destruct (eq_dec c c) as [_|Hne]; [|congruence].
    rewrite IH. do 2 f_equal. lia.
Qed.

Lemma encode_repeat_empty_code (c : char) (k : nat) :
  encode_string_with_schema (repeat c k) [(c, [])] = Ok [].
Proof.
  unfold encode_string_with_schema.
  assert (Hc : exists output,
             comprehension (getitem [(c, @nil ascii)]) (repeat c k) = Ok output
             /\ concat output = []).
  { induction k as [|k (output & Ho & Hcat)]; simpl.
    - now exists [].
    - unfold getitem at 1. simpl.
      destruct (eq_dec c c) as [_|Hne]; [|congruence].
      simpl. rewrite Ho. simpl. exists ([] :: output). now split. }
  destruct Hc as (output & -> & Hcat). simpl. now rewrite Hcat.
Qed.

(** C2.  What the script does for a frequency map of one entry: the tree
    is the leaf itself, with no internal root above it, the symbol gets
    the code of length zero, a text of that symbol is encoded to no bit at
    all, and the decoder never finds the symbol again, whatever bits it is
    given. *)
Theorem single_symbol_code_is_empty (c : char) (k : nat) (bits : list ascii) :
  frequency_map (repeat c (S k)) = [(c, S k)]
  /\ construct_tree [(c, S k)] = Ok (Leaf (S k) c)
  /\ get_schema (Leaf (S k) c) [] = [(c, [])]
  /\ encode_string_with_schema (repeat c (S k)) [(c, [])] = Ok []
  /\ decode_string_with_schema bits [(c, [])] = [].
Proof.
  split; [|split; [|split; [|split]]].
  - unfold frequency_map. simpl. unfold count_char at 2. simpl.
    apply (count_repeat c k 1).
  - unfold construct_tree. simpl. unfold getitem. simpl.
    destruct (eq_dec c c) as [_|Hne]; [reflexivity|congruence].
  - reflexivity.
  - apply encode_repeat_empty_code.
  - unfold decode_string_with_schema.
    change (swap_items [(c, @nil ascii)]) with [(@nil ascii, c)].
    rewrite decode_loop_no_match; [reflexivity|].
    intros code Hne _. simpl.
    destruct (eq_dec code []) as [->|_]; [congruence|reflexivity].
Qed.

End SingleSymbol.

(** The text ["aaaa"] through the script: the container holds the
    frequency map and the marker only, and the file written back is
    empty. *)
Lemma aaaa_decompresses_to_nothing (w : world) :
  let data := list_ascii_of_string "aaaa" in
  let run := (main_compress data "fib41" ;; main_decompress "fib41")%M w in
  container data = Ok (repr_utf8 [("a"%char, 4)] ++ [Byte.x00])
  /\ fst run = Ok tt
  /\ files (snd run) "fib41"%string = Some [].
Proof.
  vm_compute. repeat split.
Qed.

(** * The round trip *)

(** C1.  The text ["aabbbc"] through the script, from any world: the
    compressing and the decompressing statements end normally, and the
    file written back holds ["aabbbcbbbbbbb"]: the seven zero bits that
    fill the last byte of the container are decoded as seven more
    ["b"]. *)
Theorem roundtrip_decodes_padding (w : world) :
  let data := list_ascii_of_string "aabbbc" in
  let run := (main_compress data "fib41" ;; main_decompress "fib41")%M w in
  fst run = Ok tt
  /\ files (snd run) "fib41"%string
     = Some (encode_text (list_ascii_of_string "aabbbcbbbbbbb"))
  /\ (compressed <- container data ;; decompress_bytes compressed)%result
     = Ok (list_ascii_of_string "aabbbcbbbbbbb")
  /\ encode_text (list_ascii_of_string "aabbbcbbbbbbb") <> encode_text data.
Proof.
  vm_compute. repeat split. discriminate.
Qed.

(** * The serialized frequency map holds no zero byte *)

Section Latin1Header.
Import Latin1.

Lemma encode_char_no_zero (c : ascii) :
  c <> Ascii.zero -> ~ In Byte.x00 (encode_char c).
Proof.
  destruct c as [[] [] [] [] [] [] [] []]; intros Hc; vm_compute;
    intuition (try discriminate; try congruence).
Qed.

Lemma encode_no_zero (text : list ascii) :
  Forall (fun c => c <> Ascii.zero) text -> ~ In Byte.x00 (encode text).
Proof.
  unfold encode. induction 1 as [|c text Hc _ IH]; simpl; [tauto|].
  rewrite in_app_iff. intros [Hin|Hin]; [|tauto].
  exact (encode_char_no_zero c Hc Hin).
Qed.

Lemma repr_str_no_zero (c : ascii) :
  Forall (fun x => x <> Ascii.zero) (repr_str c).
Proof.
  destruct c as [[] [] [] [] [] [] [] []]; vm_compute;
    repeat constructor; discriminate.
Qed.

Lemma digit_no_zero (m : nat) :
  m < 10 -> ascii_of_nat (48 + m) <> Ascii.zero.
Proof.
  intros Hm Heq. apply (f_equal nat_of_ascii) in Heq.
  rewrite nat_ascii_embedding in Heq by lia. discriminate.
Qed.

Lemma digits_no_zero (fuel n : nat) (acc : list ascii) :
  Forall (fun x => x <> Ascii.zero) acc ->
  Forall (fun x => x <> Ascii.zero) (digits fuel n acc).
Proof.
  revert n acc. induction fuel as [|fuel IH]; intros n acc Hacc; simpl.
  - exact Hacc.
  - assert (Hd : Forall (fun x => x <> Ascii.zero)
                        (ascii_of_nat (48 + n mod 10) :: acc)).
    { constructor; [|exact Hacc].
      apply digit_no_zero, Nat.mod_upper_bound. discriminate. }
    destruct (n <? 10); [exact Hd|]. apply IH, Hd.
Qed.

Lemma join_no_zero (sep : list ascii) (l : list (list ascii)) :
  Forall (fun x => x <> Ascii.zero) sep ->
  Forall (Forall (fun x => x <> Ascii.zero)) l ->
  Forall (fun x => x <> Ascii.zero) (join sep l).
Proof.
  intros Hsep. induction 1 as [|x l Hx Hl IH]; simpl; [constructor|].
  destruct l as [|y l]; [exact Hx|].
  apply Forall_app. split; [exact Hx|].
  apply Forall_app. split; [exact Hsep|exact IH].
Qed.

Lemma repr_dict_no_zero (d : dict ascii nat) :
  Forall (fun x => x <> Ascii.zero) (repr_dict d).
Proof.
  unfold repr_dict. apply Forall_app. split; [repeat constructor; discriminate|].
  apply Forall_app. split; [|repeat constructor; discriminate].
  apply join_no_zero; [repeat constructor; discriminate|].
  unfold items. induction d as [|[k v] d IH]; simpl; constructor; [|exact IH].
  unfold repr_item. simpl fst. simpl snd.
  apply Forall_app. split; [apply repr_str_no_zero|].
  apply Forall_app. split; [repeat constructor; discriminate|].
  apply digits_no_zero. constructor.
Qed.

(** For every frequency map of Latin-1 characters the bytes written as the
    header hold no zero byte, so the first zero byte of a container is the
    marker. *)
Lemma repr_utf8_no_zero (d : dict ascii nat) : ~ In Byte.x00 (repr_utf8 d).
Proof. apply encode_no_zero, repr_dict_no_zero. Qed.

End Latin1Header.

(** * The header of a container the script wrote *)

Section WrittenContainer.
Context {char : Type} `{EqDec char} `{Codec char}.

(** A container is the serialized frequency map, the zero byte and the
    payload; the scan finds the two parts when the map is serialized
    without a zero byte. *)
Lemma container_header_found (data : list char) (compressed : list byte) :
  ~ In Byte.x00 (repr_utf8 (frequency_map data)) ->
  container data = Ok compressed ->
  exists payload,
    compressed = repr_utf8 (frequency_map data) ++ Byte.x00 :: payload
    /\ find_header (frombytes compressed)
       = Some (frombytes (repr_utf8 (frequency_map data)), frombytes payload).
Proof.
  intros Hno. unfold container.
  destruct (construct_tree (frequency_map data)) as [top_node|e];
    [|discriminate].
  cbn [rbind].
  destruct (encode_string_with_schema data (get_schema top_node []))
    as [encoded_string|e]; [|discriminate].
  cbn [rbind]. unfold extend.
  destruct (comprehension bit_of_char encoded_string) as [new_bits|e];
    [|discriminate].
  cbn [rbind]. intros Hc. injection Hc as <-.
  exists (tobytes (bits_of_options new_bits)). split; [reflexivity|].
  change (tobytes (null_marker ++ bits_of_options new_bits))
    with (Byte.x00 :: tobytes (bits_of_options new_bits)).
  rewrite find_header_split. now rewrite split_at_zero_marker.
Qed.

End WrittenContainer.

(** For a text of Latin-1 characters the scan always finds the two
    parts. *)
Lemma latin1_container_header_found
    (data : list ascii) (compressed : list byte) :
  container data = Ok compressed ->
  exists payload,
    compressed = repr_utf8 (frequency_map data) ++ Byte.x00 :: payload
    /\ find_header (frombytes compressed)
       = Some (frombytes (repr_utf8 (frequency_map data)), frombytes payload).
Proof. apply container_header_found, repr_utf8_no_zero. Qed.

(** * The frequency map *)

Section FrequencyMap.
Context {char : Type} `{EqDec char}.
Implicit Types (d : dict char nat) (string : list char).

Lemma keys_setitem_present {V : Type} (d : dict char V) (k : char) (v v' : V) :
  dict_get d k = Some v' -> keys (setitem d k v) = keys d.
Proof.
  induction d as [|[k0 v0] d IH]; simpl; [discriminate|].
  destruct (eq_dec k k0) as [->|Hne]; intros Hg; simpl; [reflexivity|].
  now rewrite IH.
Qed.

Lemma count_char_wf d c : dict_wf d -> dict_wf (count_char d c).
Proof.
  unfold dict_wf, count_char. intros Hwf.
  destruct (dict_get d c) as [n|] eqn:E.
  - now rewrite (keys_setitem_present d c (n + 1) n E).
  - apply dict_get_None in E. rewrite setitem_fresh by exact E.
    unfold keys. rewrite map_app. simpl.
    apply NoDup_app; [exact Hwf|repeat constructor; simpl; tauto|].
    intros x Hx [<-|[]]. contradiction.
Qed.

Lemma dict_get_count_char d c x :
  dict_get (count_char d c) x
  = if eq_dec x c
    then Some (match dict_get d c with Some n => n + 1 | None => 1 end)
    else dict_get d x.
Proof.
  unfold count_char. destruct (dict_get d c); apply dict_get_setitem.
Qed.

(** The count the loop reaches for [x], from any dictionary it starts
    with. *)
Lemma dict_get_fold_count string d x :
  dict_get (fold_left count_char string d) x
  = match count_occ eq_dec string x with
    | 0 => dict_get d x
    | S n => Some (match dict_get d x with Some m => m | None => 0 end + S n)
    end.
Proof.
  revert d. induction string as [|c string IH]; intros d; simpl.
  - reflexivity.
  - rewrite IH, dict_get_count_char.
    destruct (eq_dec c x) as [->|Hne].
    + destruct (eq_dec x x) as [_|Hn]; [|congruence].
      destruct (count_occ eq_dec string x), (dict_get d x); f_equal; lia.
    + destruct (eq_dec x c) as [->|_]; [congruence|reflexivity].
Qed.

Lemma fold_count_wf string d :
  dict_wf d -> dict_wf (fold_left count_char string d).
Proof.
  revert d. induction string as [|c string IH]; intros d Hwf; simpl.
  - exact Hwf.
  - apply IH, count_char_wf, Hwf.
Qed.

(** X1.  The frequency map of a text is a dictionary whose entry for a
    symbol is the number of its occurrences in the text; a symbol that
    does not occur has no entry. *)
Theorem frequency_map_counts string :
  dict_wf (frequency_map string)
  /\ forall c,
       dict_get (frequency_map string) c
       = match count_occ eq_dec string c with
         | 0 => None
         | S n => Some (S n)
         end.
Proof.
  split.
  - apply fold_count_wf. constructor.
  - intros c. unfold frequency_map. rewrite dict_get_fold_count.
    reflexivity.
Qed.

Lemma values_sum_count_char d c :
  list_sum (values (count_char d c)) = list_sum (values d) + 1.
Proof.
  unfold count_char, values. destruct (dict_get d c) as [n|] eqn:E.
  - revert E. induction d as [|[k v] d IH]; simpl; [discriminate|].
    destruct (eq_dec c k) as [->|Hne]; intros Hg; simpl.
    + injection Hg as ->. lia.
    + rewrite IH by exact Hg. lia.
  - apply dict_get_None in E. rewrite setitem_fresh by exact E.
    rewrite map_app, list_sum_app. reflexivity.
Qed.

Lemma keys_fold_count string d x :
  In x (keys (fold_left count_char string d)) <-> In x (keys d) \/ In x string.
Proof.
  revert d. induction string as [|c string IH]; intros d; simpl.
  - tauto.
  - rewrite IH. unfold count_char.
    destruct (dict_get d c); rewrite keys_setitem; intuition congruence.
Qed.

(** X2.  The counts of the frequency map add up to the length of the text,
    and its keys are the symbols that occur in the text. *)
Theorem frequency_map_total string :
  list_sum (values (frequency_map string)) = length string
  /\ forall c, In c (keys (frequency_map string)) <-> In c string.
Proof.
  split.
  - unfold frequency_map.
    assert (Hgen : forall d,
               list_sum (values (fold_left count_char string d))
               = list_sum (values d) + length string).
    { induction string as [|c string IH]; intros d; simpl; [lia|].
      rewrite IH, values_sum_count_char. lia. }
    apply Hgen.
  - intros c. unfold frequency_map. rewrite keys_fold_count. simpl. tauto.
Qed.

End FrequencyMap.

(** * The sort of the tree builder *)

Section SortOrder.
Context {char : Type} `{EqDec char}.
Implicit Types (l : list (Node char)).

Lemma insert_by_value_sorted x l :
  StronglySorted by_value l -> StronglySorted by_value (insert_by_value x l).
Proof.
  induction 1 as [|y l Hs IH Hy]; simpl.
  - repeat constructor.
  - destruct (value x <=? value y) eqn:E.
    + apply Nat.leb_le in E. constructor.
      * now constructor.
      * constructor; [exact E|].
        eapply Forall_impl; [|exact Hy]. unfold by_value. intros; lia.
    + apply Nat.leb_gt in E. constructor; [exact IH|].
      eapply Permutation_Forall.
      * symmetry. apply insert_by_value_perm.
      * constructor; [unfold by_value; lia|exact Hy].
Qed.

(** X3.  The list the loop of [construct_tree] pops from is in ascending
    order of value, holds the same nodes as before the sort, and nodes
    of equal value keep the order they had: the two nodes merged are two
    of least value, the earlier in the list first among equals. *)
Theorem sort_by_value_ascending_stable l :
  StronglySorted by_value (sort_by_value l)
  /\ Permutation (sort_by_value l) l
  /\ forall v,
       filter (fun n => value n =? v) (sort_by_value l)
       = filter (fun n => value n =? v) l.
Proof.
  split; [|split].
  - induction l as [|x l IH]; simpl; [constructor|].
    now apply insert_by_value_sorted.
  - apply sort_by_value_perm.
  - intros v. apply sort_by_value_stable.
Qed.

End SortOrder.

(** * The tree of a frequency map *)

Section TreeShape.
Context {char : Type} `{EqDec char}.
Implicit Types (t : Node char) (l : list (Node char)).

(** What holds of the forest at every turn of the loop holds of the forest
    it ends with. *)
Lemma merge_loop_invariant (P : list (Node char) -> Prop) :
  (forall l l', Permutation l l' -> P l -> P l') ->
  (forall a b rest,
      P (a :: b :: rest) ->
      P (rest ++ [Internal (value a + value b) a b])) ->
  forall fuel l l', P l -> merge_loop fuel l = Ok l' -> P l'.
Proof.
  intros Hperm Hmerge. induction fuel as [|fuel IH]; intros l l' HP; simpl.
  - intros Heq. now injection Heq as <-.
  - destruct (1 <? length l).
    + pose proof (sort_by_value_perm l) as Hp.
      destruct (sort_by_value l) as [|a [|b rest]]; simpl; try discriminate.
      apply IH, Hmerge. eapply Hperm; [symmetry; exact Hp|exact HP].
    + intros Heq. now injection Heq as <-.
Qed.

Lemma leaves_of_leaf_items t : leaves t = map fst (leaf_items t).
Proof.
  induction t as [|? l IHl r IHr]; simpl; [reflexivity|].
  now rewrite map_app, IHl, IHr.
Qed.

Lemma flat_map_perm {A B : Type} (f : A -> list B) (l l' : list A) :
  Permutation l l' -> Permutation (flat_map f l) (flat_map f l').
Proof.
  induction 1; simpl.
  - reflexivity.
  - now apply Permutation_app_head.
  - rewrite !app_assoc. apply Permutation_app_tail, Permutation_app_comm.
  - etransitivity; eassumption.
Qed.

(** The leaves the builder starts from, for a dictionary: one for every
    item. *)
Lemma initial_leaf_items (char_map : dict char nat) :
  dict_wf char_map ->
  comprehension (fun k => v <- getitem char_map k ;; Ok (Leaf v k))%result
                (keys char_map)
  = Ok (map (fun kv => Leaf (snd kv) (fst kv)) char_map).
Proof.
  intros Hwf.
  assert (Hsub : forall sub,
             (forall kv, In kv sub -> In kv char_map) ->
             comprehension
               (fun k => v <- getitem char_map k ;; Ok (Leaf v k))%result
               (keys sub)
             = Ok (map (fun kv => Leaf (snd kv) (fst kv)) sub)).
  { induction sub as [|[k v] sub IH]; intros Hin; simpl; [reflexivity|].
    rewrite IH by (intros; apply Hin; now right).
    unfold getitem.
    rewrite (dict_get_wf char_map k v Hwf) by (apply Hin; now left).
    reflexivity. }
  apply Hsub. auto.
Qed.

Lemma construct_tree_loop (char_map : dict char nat) :
  dict_wf char_map -> char_map <> [] ->
  exists t,
    construct_tree char_map = Ok t
    /\ merge_loop (length char_map)
                  (map (fun kv => Leaf (snd kv) (fst kv)) char_map)
       = Ok [t].
Proof.
  intros Hwf Hne. unfold construct_tree.
  rewrite initial_leaf_items by exact Hwf. cbn [rbind].
  rewrite length_map.
  destruct (merge_loop_spec (length char_map)
              (map (fun kv => Leaf (snd kv) (fst kv)) char_map))
    as (t & Ht & _).
  - destruct char_map; [congruence|discriminate].
  - rewrite length_map. lia.
  - rewrite Ht. cbn [rbind]. now exists t.
Qed.

(** X4.  The tree built for a non-empty frequency map has one leaf for
    every entry of the map, holding the symbol and its frequency; every
    internal node holds the sum of the values of its two children, and
    the root holds the sum of all frequencies. *)
Theorem construct_tree_weights (char_map : dict char nat) :
  dict_wf char_map -> char_map <> [] ->
  exists top_node,
    construct_tree char_map = Ok top_node
    /\ Permutation (leaf_items top_node) (items char_map)
    /\ well_weighted top_node
    /\ value top_node = list_sum (values char_map).
Proof.
  intros Hwf Hne.
  destruct (construct_tree_loop char_map Hwf Hne) as (t & Ht & Hloop).
  exists t. split; [exact Ht|].
  set (start := map (fun kv => Leaf (snd kv) (fst kv)) char_map) in *.
  split; [|split].
  - assert (Hp : Permutation (flat_map leaf_items [t]) char_map).
    { eapply (merge_loop_invariant
                (fun l => Permutation (flat_map leaf_items l) char_map));
        [| |idtac|exact Hloop].
      - intros l l' Hp HP. rewrite <- HP. apply flat_map_perm. now symmetry.
      - intros a b rest HP. rewrite <- HP, flat_map_app. simpl.
        rewrite app_nil_r, (app_assoc (leaf_items a)).
        apply Permutation_app_comm.
      - subst start. clear. induction char_map as [|[k v] m IH]; simpl.
        + reflexivity.
        + now constructor. }
    simpl in Hp. now rewrite app_nil_r in Hp.
  - pose proof (merge_loop_invariant (Forall well_weighted)) as Hinv.
    assert (Hwt : Forall well_weighted [t]).
    { eapply Hinv; [| |idtac|exact Hloop].
      - intros l l' Hp HP. eapply Permutation_Forall; eassumption.
      - intros a b rest HP. inversion HP as [|? ? Ha HP']; subst.
        inversion HP' as [|? ? Hb Hrest]; subst.
        apply Forall_app. split; [exact Hrest|].
        constructor; [|constructor]. simpl. auto.
      - subst start. apply Forall_map, Forall_forall. intros; exact I. }
    now inversion Hwt.
  - pose proof (merge_loop_invariant
                  (fun l => list_sum (map value l) = list_sum (values char_map)))
      as Hinv.
    assert (Hv : list_sum (map value [t]) = list_sum (values char_map)).
    { eapply Hinv; [| |idtac|exact Hloop].
      - intros l l' Hp HP. rewrite <- HP.
        clear -Hp. induction Hp; simpl; lia.
      - intros a b rest HP. rewrite <- HP, map_app, list_sum_app. simpl. lia.
      - subst start. unfold values. rewrite map_map. reflexivity. }
    simpl in Hv. lia.
Qed.

End TreeShape.

Lemma construct_tree_weights_witness :
  exists top_node,
    construct_tree [("a"%char, 2); ("b"%char, 3); ("c"%char, 1)] = Ok top_node
    /\ Permutation (leaf_items top_node)
                   [("a"%char, 2); ("b"%char, 3); ("c"%char, 1)]
    /\ well_weighted top_node
    /\ value top_node = 6.
Proof.
  apply (construct_tree_weights [("a"%char, 2); ("b"%char, 3); ("c"%char, 1)]).
  - unfold dict_wf. simpl. repeat constructor; simpl; intuition discriminate.
  - discriminate.
Defined.

(** * The codes of a tree *)

Section Codes.
Context {char : Type} `{EqDec char}.
Implicit Types (t : Node char).

Lemma In_setitem_pair {K V : Type} `{EqDec K} (d : dict K V) (k : K) (v : V)
    (kv : K * V) :
  In kv (setitem d k v) -> In kv d \/ kv = (k, v).
Proof.
  induction d as [|[k0 v0] d IH]; simpl.
  - intros [<-|[]]. now right.
  - destruct (eq_dec k k0) as [->|Hne]; simpl.
    + intros [<-|Hin]; [now right|left; now right].
    + intros [<-|Hin]; [left; now left|].
      destruct (IH Hin); [left; now right|now right].
Qed.

Lemma In_update {K V : Type} `{EqDec K} (d : dict K V) (pairs : list (K * V))
    (kv : K * V) :
  In kv (update d pairs) -> In kv d \/ In kv pairs.
Proof.
  unfold update. revert d.
  induction pairs as [|[k v] pairs IH]; intros d; simpl; [tauto|].
  intros Hin. destruct (IH _ Hin) as [Hd|Hp]; [|tauto].
  destruct (In_setitem_pair d k v kv Hd) as [Hd' | ->]; tauto.
Qed.

Lemma get_schema_codes t (pattern : list ascii) :
  Forall is_bit pattern ->
  Forall (fun kv => Forall is_bit (snd kv)
                    /\ length (snd kv) <= length pattern + height t)
         (get_schema t pattern).
Proof.
  revert pattern. induction t as [|? l IHl r IHr]; intros pattern Hp; simpl.
  - constructor; [|constructor]. simpl. split; [exact Hp|lia].
  - apply Forall_forall. intros kv Hin.
    assert (Hbit : forall b, is_bit b -> Forall is_bit (pattern ++ [b]))
      by (intros b Hb; apply Forall_app; split; [exact Hp|now constructor]).
    apply In_update in Hin. destruct Hin as [Hin|Hin].
    + specialize (IHl (pattern ++ ["0"%char]) (Hbit _ (or_introl eq_refl))).
      rewrite Forall_forall in IHl. destruct (IHl kv Hin) as [Hb Hlen].
      split; [exact Hb|]. rewrite length_app in Hlen. simpl in Hlen. lia.
    + specialize (IHr (pattern ++ ["1"%char]) (Hbit _ (or_intror eq_refl))).
      rewrite Forall_forall in IHr. destruct (IHr kv Hin) as [Hb Hlen].
      split; [exact Hb|]. rewrite length_app in Hlen. simpl in Hlen. lia.
Qed.

Lemma height_lt_leaves t : height t < length (leaves t).
Proof.
  induction t as [|? l IHl r IHr]; simpl; [lia|].
  rewrite length_app. lia.
Qed.

(** X5.  Every code of the table generated for a non-empty frequency map
    is a string of the characters ["0"] and ["1"], and it is shorter than
    the number of entries of the map. *)
Theorem schema_codes_are_short_bit_strings (char_map : dict char nat) :
  char_map <> [] ->
  exists top_node,
    construct_tree char_map = Ok top_node
    /\ Forall (fun kv => Forall is_bit (snd kv)
                         /\ length (snd kv) < length (keys char_map))
              (get_schema top_node []).
Proof.
  intros Hne.
  destruct (construct_tree_leaves char_map Hne) as (t & Ht & Hperm).
  exists t. split; [exact Ht|].
  pose proof (height_lt_leaves t) as Hh.
  rewrite (Permutation_length Hperm) in Hh.
  eapply Forall_impl; [|apply (get_schema_codes t []); constructor].
  simpl. intros kv [Hb Hl]. split; [exact Hb|lia].
Qed.

End Codes.

Lemma schema_codes_are_short_bit_strings_witness :
  exists top_node,
    construct_tree [("a"%char, 2); ("b"%char, 3); ("c"%char, 1)] = Ok top_node
    /\ Forall (fun kv => Forall is_bit (snd kv) /\ length (snd kv) < 3)
              (get_schema top_node []).
Proof.
  apply (schema_codes_are_short_bit_strings
           [("a"%char, 2); ("b"%char, 3); ("c"%char, 1)]).
  discriminate.
Defined.

(** * Encoder and decoder *)

Section EncodeDecode.
Context {char : Type} `{EqDec char}.
Implicit Types (encoding : dict char (list ascii)) (string : list char).

Lemma comprehension_getitem_result encoding string :
  (exists output, comprehension (getitem encoding) string = Ok output
                  /\ forall c, In c string -> In c (keys encoding))
  \/ (comprehension (getitem encoding) string = Raise KeyError
      /\ exists c, In c string /\ ~ In c (keys encoding)).
Proof.
  induction string as [|c string IH]; simpl.
  - left. exists []. split; [reflexivity|tauto].
  - destruct (dict_get encoding c) as [p|] eqn:E.
    + assert (Hg : getitem encoding c = Ok p)
        by (unfold getitem; now rewrite E).
      rewrite !Hg. cbn [rbind].
      destruct IH as [(output & -> & Hall)|(-> & c' & Hc' & Hn)]; cbn [rbind].
      * left. exists (p :: output). split; [reflexivity|].
        intros x [<-|Hx]; [|auto].
        destruct (in_dec eq_dec c (keys encoding)) as [Hin|Hnin];
          [exact Hin|].
        apply dict_get_None in Hnin. congruence.
      * right. split; [reflexivity|]. exists c'. split; [now right|exact Hn].
    + assert (Hg : getitem encoding c = Raise KeyError)
        by (unfold getitem; now rewrite E).
      rewrite !Hg. cbn [rbind].
      right. split; [reflexivity|]. exists c. split; [now left|].
      now apply dict_get_None.
Qed.

(** X6.  [encode_string_with_schema] raises exactly when a symbol of the
    string has no entry in the table; the exception is then [KeyError],
    and no other exception is ever raised. *)
Theorem encode_raises_KeyError_iff_missing encoding string :
  (encode_string_with_schema string encoding = Raise KeyError
   <-> exists c, In c string /\ ~ In c (keys encoding))
  /\ forall e, encode_string_with_schema string encoding = Raise e ->
               e = KeyError.
Proof.
  unfold encode_string_with_schema.
  destruct (comprehension_getitem_result encoding string)
    as [(output & -> & Hall)|(-> & Hex)]; simpl.
  - split; [|discriminate]. split; [discriminate|].
    intros (c & Hc & Hn). exfalso. apply Hn, Hall, Hc.
  - split; [tauto|]. intros e He. now injection He as <-.
Qed.

Lemma decode_step_output (inverse : dict (list ascii) char)
    (st : list char * list ascii) (b : ascii) :
  let st' := decode_step inverse st b in
  (fst st' = fst st
   \/ exists k, fst st' = fst st ++ [k]
                /\ In (snd st ++ [b], k) inverse)
  /\ length (fst st') <= S (length (fst st)).
Proof.
  destruct st as [output pattern]. unfold decode_step. simpl.
  destruct (dict_get inverse (pattern ++ [b])) as [k|] eqn:E; simpl.
  - split; [|rewrite length_app; simpl; lia].
    right. exists k. split; [reflexivity|]. now apply dict_get_Some_In.
  - split; [now left|lia].
Qed.

Lemma In_swap_items encoding (p : list ascii) (k : char) :
  In (p, k) (swap_items encoding) -> In (k, p) encoding.
Proof.
  unfold swap_items, dict_of, items. intros Hin.
  apply In_update in Hin. destruct Hin as [[]|Hin].
  apply in_map_iff in Hin. destruct Hin as ([k' p'] & Heq & Hin).
  simpl in Heq. now injection Heq as <- <-.
Qed.

(** X7.  The decoder returns symbols of the table only, each for a code of
    the table read from the stream, and never more symbols than the stream
    has bits. *)
Theorem decode_outputs_table_symbols encoding (bits : list ascii) :
  Forall (fun c => In c (keys encoding))
         (decode_string_with_schema bits encoding)
  /\ length (decode_string_with_schema bits encoding) <= length bits.
Proof.
  unfold decode_string_with_schema.
  assert (Hgen : forall st,
             Forall (fun c => In c (keys encoding)) (fst st) ->
             Forall (fun c => In c (keys encoding))
                    (fst (fold_left (decode_step (swap_items encoding)) bits st))
             /\ length (fst (fold_left (decode_step (swap_items encoding))
                                       bits st))
                <= length (fst st) + length bits).
  { induction bits as [|b bits IH]; intros st Hst; simpl.
    - split; [exact Hst|lia].
    - destruct (decode_step_output (swap_items encoding) st b)
        as [Hout Hlen].
      destruct (IH (decode_step (swap_items encoding) st b)) as [Hall Hl].
      + destruct Hout as [->|(k & -> & Hk)]; [exact Hst|].
        apply Forall_app. split; [exact Hst|]. constructor; [|constructor].
        apply In_swap_items in Hk.
        change k with (fst (k, snd st ++ [b])). now apply in_map.
      + split; [exact Hall|lia]. }
  destruct (Hgen ([], [])) as [Hall Hl]; [constructor|].
  split; [exact Hall|exact Hl].
Qed.

End EncodeDecode.

(** * Decoding what was encoded *)

Section RoundTrip.
Context {char : Type} `{EqDec char}.
Implicit Types (encoding : dict char (list ascii)) (string : list char).

Lemma codes_injective encoding (c1 c2 : char) (p : list ascii) :
  prefix_free encoding ->
  In (c1, p) encoding -> In (c2, p) encoding -> c1 = c2.
Proof.
  intros Hpf H1 H2. destruct (eq_dec c1 c2) as [Heq|Hne]; [exact Heq|].
  exfalso. apply (Hpf c1 p c2 p H1 H2 Hne). exists []. now rewrite app_nil_r.
Qed.

(** A whole code is found in the inverted table, with its symbol. *)
Lemma inverse_finds_code encoding (c : char) (p : list ascii) :
  prefix_free encoding -> In (c, p) encoding ->
  dict_get (swap_items encoding) p = Some c.
Proof.
  intros Hpf Hin. destruct (dict_get (swap_items encoding) p) as [c'|] eqn:E.
  - apply dict_get_Some_In, In_swap_items in E.
    f_equal. exact (codes_injective encoding c' c p Hpf E Hin).
  - apply swap_items_None in E. exfalso. apply E.
    change p with (snd (c, p)). now apply in_map.
Qed.

(** The beginning of a code, short of the whole code, is not found. *)
Lemma inverse_misses_prefix encoding (c : char) (q r : list ascii) :
  dict_wf encoding -> prefix_free encoding ->
  In (c, q ++ r) encoding -> r <> [] ->
  dict_get (swap_items encoding) q = None.
Proof.
  intros Hwf Hpf Hin Hr. apply swap_items_None. intros Hq.
  apply in_map_iff in Hq. destruct Hq as ([c' q'] & Heq & Hq).
  simpl in Heq. subst q'.
  destruct (eq_dec c' c) as [->|Hne].
  - pose proof (dict_get_wf encoding c q Hwf Hq) as G1.
    pose proof (dict_get_wf encoding c (q ++ r) Hwf Hin) as G2.
    rewrite G1 in G2. injection G2 as G2.
    apply Hr. rewrite <- (app_nil_r q) in G2 at 1.
    now apply app_inv_head in G2.
  - apply (Hpf c' q c (q ++ r) Hq Hin Hne). now exists r.
Qed.

Lemma decode_code_tail encoding (c : char) (output : list char)
    (p2 p1 : list ascii) :
  dict_wf encoding -> prefix_free encoding ->
  In (c, p1 ++ p2) encoding -> p2 <> [] ->
  fold_left (decode_step (swap_items encoding)) p2 (output, p1)
  = (output ++ [c], []).
Proof.
  intros Hwf Hpf. revert p1.
  induction p2 as [|b p2 IH]; intros p1 Hin Hne; [congruence|].
  simpl. destruct p2 as [|b' p2].
  - rewrite (inverse_finds_code encoding c (p1 ++ [b]) Hpf Hin). reflexivity.
  - rewrite (inverse_misses_prefix encoding c (p1 ++ [b]) (b' :: p2) Hwf Hpf);
      [|now rewrite <- app_assoc|discriminate].
    apply IH; [now rewrite <- app_assoc|discriminate].
Qed.

(** The decoder reads the codes of a string back, one symbol a code. *)
Lemma decode_concat_codes encoding string :
  dict_wf encoding -> prefix_free encoding ->
  (forall c p, In (c, p) encoding -> p <> []) ->
  forall (codes : list (list ascii)) (output : list char),
    comprehension (getitem encoding) string = Ok codes ->
    fold_left (decode_step (swap_items encoding)) (concat codes) (output, [])
    = (output ++ string, []).
Proof.
  intros Hwf Hpf Hne.
  induction string as [|c string IH]; intros codes output; simpl.
  - intros Heq. injection Heq as <-. simpl. now rewrite app_nil_r.
  - unfold getitem at 1.
    destruct (dict_get encoding c) as [p|] eqn:E; [|discriminate].
    cbn [rbind].
    destruct (comprehension (getitem encoding) string) as [codes'|];
      [|discriminate].
    cbn [rbind]. intros Heq. injection Heq as <-.
    apply dict_get_Some_In in E.
    simpl. rewrite fold_left_app.
    rewrite (decode_code_tail encoding c output p []) by eauto.
    rewrite (IH codes' (output ++ [c]) eq_refl).
    now rewrite <- app_assoc.
Qed.

(** X8.  With a table that is a dictionary, prefix-free and without empty
    code, decoding the encoding of a string of symbols of the table gives
    the string back, and no bit is left over. *)
Theorem decode_encode_roundtrip encoding string :
  dict_wf encoding -> prefix_free encoding ->
  (forall c p, In (c, p) encoding -> p <> []) ->
  (forall c, In c string -> In c (keys encoding)) ->
  exists encoded,
    encode_string_with_schema string encoding = Ok encoded
    /\ decode_string_with_schema encoded encoding = string
    /\ snd (decode_state encoded encoding) = [].
Proof.
  intros Hwf Hpf Hne Hdom.
  destruct (comprehension_getitem encoding string Hdom) as (codes & Hc & _).
  exists (concat codes). unfold encode_string_with_schema. rewrite Hc.
  split; [reflexivity|].
  unfold decode_string_with_schema, decode_state.
  rewrite (decode_concat_codes encoding string Hwf Hpf Hne codes [] Hc).
  split; reflexivity.
Qed.

(** The table of the tree built for a text with two different symbols. *)
Lemma schema_of_text string (a b : char) :
  In a string -> In b string -> a <> b ->
  exists t,
    construct_tree (frequency_map string) = Ok t
    /\ dict_wf (get_schema t [])
    /\ prefix_free (get_schema t [])
    /\ (forall c p, In (c, p) (get_schema t []) -> p <> [])
    /\ (forall c, In c string -> In c (keys (get_schema t []))).
Proof.
  intros Ha Hb Hab.
  assert (Hkeys : forall c, In c (keys (frequency_map string)) <-> In c string).
  { intros c. unfold frequency_map. rewrite keys_fold_count. simpl. tauto. }
  assert (Hwf : dict_wf (frequency_map string))
    by (apply fold_count_wf; constructor).
  assert (Hne : frequency_map string <> []).
  { intros Heq. apply Hkeys in Ha. rewrite Heq in Ha. exact Ha. }
  destruct (construct_tree_leaves _ Hne) as (t & Ht & Hperm).
  exists t. split; [exact Ht|].
  assert (Hnd : NoDup (leaves t))
    by (eapply Permutation_NoDup; [symmetry; exact Hperm|exact Hwf]).
  assert (Hs : get_schema t [] = leaf_paths t).
  { rewrite get_schema_leaf_paths by exact Hnd.
    rewrite <- (map_id (leaf_paths t)) at 2.
    apply map_ext. now intros [c p]. }
  rewrite Hs. split; [|split; [|split]].
  - unfold dict_wf. now rewrite keys_leaf_paths.
  - now apply leaf_paths_prefix_free.
  - assert (Hin : forall c, In c string -> In c (leaves t)).
    { intros c Hc. apply Hkeys in Hc.
      eapply Permutation_in; [symmetry; exact Hperm|exact Hc]. }
    destruct t as [v c0|v l r].
    + exfalso. apply Hab.
      destruct (Hin a Ha) as [<-|[]]. destruct (Hin b Hb) as [<-|[]].
      reflexivity.
    + intros c p Hcp. simpl in Hcp. apply in_app_iff in Hcp.
      destruct Hcp as [Hcp|Hcp]; apply in_map_iff in Hcp;
        destruct Hcp as (kv & Heq & _); injection Heq as _ <-; discriminate.
  - intros c Hc. rewrite keys_leaf_paths. apply Hkeys in Hc.
    eapply Permutation_in; [symmetry; exact Hperm|exact Hc].
Qed.

(** X9.  For a text with at least two different symbols, the table
    [huffman_encode] generates decodes the bits it encodes the text to
    back into the text. *)
Theorem huffman_table_roundtrip string (a b : char) :
  In a string -> In b string -> a <> b ->
  exists top_node encoded,
    construct_tree (frequency_map string) = Ok top_node
    /\ encode_string_with_schema string (get_schema top_node []) = Ok encoded
    /\ decode_string_with_schema encoded (get_schema top_node []) = string.
Proof.
  intros Ha Hb Hab.
  destruct (schema_of_text string a b Ha Hb Hab)
    as (t & Ht & Hwf & Hpf & Hne & Hdom).
  destruct (comprehension_getitem _ string Hdom) as (codes & Hc & _).
  exists t, (concat codes). split; [exact Ht|].
  unfold encode_string_with_schema. rewrite Hc. split; [reflexivity|].
  unfold decode_string_with_schema.
  now rewrite (decode_concat_codes _ string Hwf Hpf Hne codes [] Hc).
Qed.

End RoundTrip.

Lemma decode_encode_roundtrip_witness :
  let encoding :=
    [("b", ["0"]); ("c", ["1"; "0"]); ("a", ["1"; "1"])]%char in
  exists encoded,
    encode_string_with_schema ["a"; "a"; "b"; "b"; "b"; "c"]%char encoding
    = Ok encoded
    /\ decode_string_with_schema encoded encoding
       = ["a"; "a"; "b"; "b"; "b"; "c"]%char
    /\ snd (decode_state encoded encoding) = [].
Proof.
  intros encoding.
  apply (decode_encode_roundtrip encoding ["a"; "a"; "b"; "b"; "b"; "c"]%char).
  - unfold dict_wf. simpl. repeat constructor; simpl; intuition discriminate.
  - intros c1 p1 c2 p2 H1 H2 Hne [r Hr]. simpl in H1, H2.
    destruct H1 as [H1|[H1|[H1|[]]]], H2 as [H2|[H2|[H2|[]]]];
      injection H1 as <- <-; injection H2 as <- <-;
      solve [congruence | discriminate].
  - intros c p Hin. simpl in Hin.
    destruct Hin as [Hin|[Hin|[Hin|[]]]]; injection Hin as <- <-; discriminate.
  - simpl. intros c Hc. intuition.
Defined.

Lemma huffman_table_roundtrip_witness :
  exists top_node encoded,
    construct_tree (frequency_map ["a"; "a"; "b"; "b"; "b"; "c"]%char)
    = Ok top_node
    /\ encode_string_with_schema ["a"; "a"; "b"; "b"; "b"; "c"]%char
                                 (get_schema top_node [])
       = Ok encoded
    /\ decode_string_with_schema encoded (get_schema top_node [])
       = ["a"; "a"; "b"; "b"; "b"; "c"]%char.
Proof.
  apply (huffman_table_roundtrip ["a"; "a"; "b"; "b"; "b"; "c"]%char
                                 "a"%char "b"%char).
  - simpl. tauto.
  - simpl. tauto.
  - discriminate.
Defined.

(** * Packing bits into bytes *)

Lemma bits_of_byte_of_bits (b7 b6 b5 b4 b3 b2 b1 b0 : bool) :
  bits_of_byte (byte_of_bits b7 b6 b5 b4 b3 b2 b1 b0)
  = [b7; b6; b5; b4; b3; b2; b1; b0].
Proof.
  unfold bits_of_byte, byte_of_bits. now rewrite Byte.to_bits_of_bits.
Qed.

Lemma byte_of_bits_of_byte (b : byte) :
  tobytes (bits_of_byte b) = [b].
Proof.
  unfold bits_of_byte.
  destruct (Byte.to_bits b) as (b0 & b1 & b2 & b3 & b4 & b5 & b6 & b7) eqn:E.
  simpl. unfold byte_of_bits. now rewrite <- E, Byte.of_bits_to_bits.
Qed.

Lemma tobytes_byte_app (b : byte) (bits : bitarray) :
  tobytes (bits_of_byte b ++ bits) = b :: tobytes bits.
Proof.
  pose proof (byte_of_bits_of_byte b) as Hb. unfold bits_of_byte in *.
  destruct (Byte.to_bits b) as (b0 & b1 & b2 & b3 & b4 & b5 & b6 & b7).
  simpl in *. now injection Hb as ->.
Qed.

Lemma tobytes_frombytes (bytes : list byte) : tobytes (frombytes bytes) = bytes.
Proof.
  induction bytes as [|b bytes IH]; [reflexivity|].
  change (frombytes (b :: bytes)) with (bits_of_byte b ++ frombytes bytes).
  now rewrite tobytes_byte_app, IH.
Qed.

Lemma padding_past_byte (b7 b6 b5 b4 b3 b2 b1 b0 : bool) (bits : bitarray) :
  padding (b7 :: b6 :: b5 :: b4 :: b3 :: b2 :: b1 :: b0 :: bits) = padding bits.
Proof.
  unfold padding. f_equal. cbn [length].
  replace (S (S (S (S (S (S (S (S (length bits)))))))))
    with (length bits + 1 * 8) by lia.
  now rewrite Nat.Div0.mod_add.
Qed.

Lemma frombytes_tobytes_bounded (n : nat) (bits : bitarray) :
  length bits <= n -> frombytes (tobytes bits) = bits ++ padding bits.
Proof.
  revert bits. induction n as [|n IH]; intros bits Hlen.
  - destruct bits; [reflexivity|simpl in Hlen; lia].
  - destruct bits as [|b7 [|b6 [|b5 [|b4 [|b3 [|b2 [|b1 [|b0 rest]]]]]]]];
      try (unfold frombytes; cbn [tobytes nth flat_map];
           rewrite bits_of_byte_of_bits; reflexivity).
    + reflexivity.
    + rewrite padding_past_byte.
      cbn [tobytes].
      change (frombytes (byte_of_bits b7 b6 b5 b4 b3 b2 b1 b0 :: tobytes rest))
        with (bits_of_byte (byte_of_bits b7 b6 b5 b4 b3 b2 b1 b0)
              ++ frombytes (tobytes rest)).
      rewrite bits_of_byte_of_bits, IH by (simpl in Hlen; lia).
      reflexivity.
Qed.

Lemma length_padding (bits : bitarray) :
  length (padding bits) = (8 - length bits mod 8) mod 8.
Proof. unfold padding. apply repeat_length. Qed.

Lemma padded_length (n : nat) :
  (n + (8 - n mod 8) mod 8) = 8 * ((n + 7) / 8).
Proof.
  pose proof (Nat.div_mod_eq n 8) as Hn.
  pose proof (Nat.mod_upper_bound n 8) as Hr.
  set (q := n / 8) in *. set (r := n mod 8) in *.
  assert (Hcases : r = 0 \/ (0 < r /\ r < 8)) by lia.
  destruct Hcases as [Hz|Hpos].
  - rewrite Hz in *. simpl Nat.sub. rewrite Nat.Div0.mod_same.
    replace (n + 7) with (7 + q * 8) by lia.
    rewrite Nat.div_add by discriminate. simpl. lia.
  - rewrite (Nat.mod_small (8 - r)) by lia.
    replace (n + 7) with ((r - 1) + (q + 1) * 8) by lia.
    rewrite Nat.div_add by discriminate.
    rewrite (Nat.div_small (r - 1)) by lia. lia.
Qed.

(** X10.  Writing a bit array to a file and reading the file back gives
    the bits followed by the zero bits that fill the last byte, fewer than
    eight; the file has one byte for every eight bits, rounded up; and
    the bytes of a file read and written again are unchanged. *)
Theorem tofile_fromfile_pads (bits : bitarray) (bytes : list byte) :
  frombytes (tobytes bits) = bits ++ padding bits
  /\ length (padding bits) < 8
  /\ length (tobytes bits) = (length bits + 7) / 8
  /\ tobytes (frombytes bytes) = bytes.
Proof.
  pose proof (frombytes_tobytes_bounded (length bits) bits (le_n _)) as Hrt.
  split; [exact Hrt|]. split; [|split].
  - rewrite length_padding. apply Nat.mod_upper_bound. discriminate.
  - apply (f_equal (@length bool)) in Hrt.
    rewrite length_frombytes, length_app, length_padding, padded_length in Hrt.
    lia.
  - apply tobytes_frombytes.
Qed.

(** * The container of a text, read back *)

Section FileRoundTrip.
Context {char : Type} `{EqDec char} `{Codec char}.
Implicit Types (encoding : dict char (list ascii)) (data : list char).

Lemma encoded_is_bits encoding data (encoded : list ascii) :
  Forall (fun kv => Forall is_bit (snd kv)) encoding ->
  encode_string_with_schema data encoding = Ok encoded ->
  Forall is_bit encoded.
Proof.
  intros Hbits. unfold encode_string_with_schema.
  revert encoded. induction data as [|c data IH]; intros encoded; simpl.
  - intros Heq. injection Heq as <-. constructor.
  - unfold getitem at 1.
    destruct (dict_get encoding c) as [p|] eqn:E; [|discriminate].
    cbn [rbind].
    destruct (comprehension (getitem encoding) data) as [codes|];
      [|discriminate].
    cbn [rbind] in *. intros Heq. injection Heq as <-. simpl.
    apply Forall_app. split; [|now apply IH].
    apply dict_get_Some_In in E. rewrite Forall_forall in Hbits.
    exact (Hbits _ E).
Qed.

(** A string of bits is taken by [extend], and [string_of_bits] writes it
    again. *)
Lemma extend_bits (s : list ascii) :
  Forall is_bit s ->
  exists bits,
    extend null_marker s = Ok (null_marker ++ bits)
    /\ string_of_bits bits = s /\ length bits = length s.
Proof.
  unfold extend.
  induction 1 as [|c s Hc _ (bits & Hb & Hs & Hl)]; simpl.
  - now exists [].
  - destruct (comprehension bit_of_char s) as [options|]; [|discriminate].
    simpl in Hb. injection Hb as Hb.
    destruct Hc as [-> | ->]; simpl; rewrite Hb.
    + exists (false :: bits). simpl. now rewrite Hs, Hl.
    + exists (true :: bits). simpl. now rewrite Hs, Hl.
Qed.

Lemma string_of_padding (bits : bitarray) :
  string_of_bits (padding bits)
  = repeat "0"%char ((8 - length bits mod 8) mod 8).
Proof.
  unfold padding, string_of_bits.
  induction ((8 - length bits mod 8) mod 8) as [|n IH]; simpl; congruence.
Qed.

(** The output of the loop grows at its end. *)
Lemma decode_loop_output (inverse : dict (list ascii) char)
    (bits : list ascii) (output : list char) (pattern : list ascii) :
  fold_left (decode_step inverse) bits (output, pattern)
  = (output ++ fst (fold_left (decode_step inverse) bits ([], pattern)),
     snd (fold_left (decode_step inverse) bits ([], pattern))).
Proof.
  revert output pattern.
  induction bits as [|b bits IH]; intros output pattern; simpl.
  - now rewrite app_nil_r.
  - destruct (dict_get inverse (pattern ++ [b])) as [k|].
    + rewrite (IH (output ++ [k])), (IH ([] ++ [k])). simpl.
      now rewrite <- app_assoc.
    + apply IH.
Qed.

(** What the container of a non-empty text is made of. *)
Lemma container_parts data :
  data <> [] ->
  exists t encoded bits,
    construct_tree (frequency_map data) = Ok t
    /\ encode_string_with_schema data (get_schema t []) = Ok encoded
    /\ length encoded = weighted_length (get_schema t []) (frequency_map data)
    /\ string_of_bits bits = encoded /\ length bits = length encoded
    /\ container data
       = Ok (repr_utf8 (frequency_map data) ++ Byte.x00 :: tobytes bits).
Proof.
  intros Hne.
  assert (Hkeys : forall c, In c (keys (frequency_map data)) <-> In c data).
  { intros c. unfold frequency_map. rewrite keys_fold_count. simpl. tauto. }
  assert (Hfm : frequency_map data <> []).
  { destruct data as [|c data]; [congruence|]. intros Heq.
    assert (Hc : In c (keys (frequency_map (c :: data))))
      by (apply Hkeys; now left).
    rewrite Heq in Hc. exact Hc. }
  destruct (construct_tree_leaves _ Hfm) as (t & Ht & Hperm).
  assert (Hdom : forall c, In c data -> In c (keys (get_schema t []))).
  { intros c Hc. apply keys_get_schema. apply Hkeys in Hc.
    eapply Permutation_in; [symmetry; exact Hperm|exact Hc]. }
  destruct (encode_length (get_schema t []) data Hdom) as (encoded & He & Hl).
  assert (Hb : Forall is_bit encoded).
  { eapply encoded_is_bits; [|exact He].
    eapply Forall_impl; [|apply (get_schema_codes t []); constructor].
    now intros kv [Hkv _]. }
  destruct (extend_bits encoded Hb) as (bits & Hbits & Hs & Hlen).
  exists t, encoded, bits. repeat split; try assumption.
  unfold container. rewrite Ht. cbn [rbind]. rewrite He. cbn [rbind].
  rewrite Hbits. reflexivity.
Qed.

(** X11.  Compressing a non-empty text never fails, and the container is
    the bytes of the serialized frequency map, one zero byte, and the bits
    of the encoding packed into one byte for every eight bits, rounded
    up, where the number of bits is the sum over the symbols of frequency
    times code length. *)
Theorem container_size data :
  data <> [] ->
  exists top_node encoded bits compressed,
    construct_tree (frequency_map data) = Ok top_node
    /\ encode_string_with_schema data (get_schema top_node []) = Ok encoded
    /\ string_of_bits bits = encoded
    /\ length bits
       = weighted_length (get_schema top_node []) (frequency_map data)
    /\ container data = Ok compressed
    /\ compressed
       = repr_utf8 (frequency_map data) ++ Byte.x00 :: tobytes bits
    /\ length (tobytes bits) = (length bits + 7) / 8
    /\ length compressed
       = length (repr_utf8 (frequency_map data)) + 1
         + (weighted_length (get_schema top_node []) (frequency_map data) + 7)
           / 8.
Proof.
  intros Hne.
  destruct (container_parts data Hne)
    as (t & encoded & bits & Ht & He & Hl & Hs & Hlen & Hc).
  exists t, encoded, bits. eexists.
  split; [exact Ht|]. split; [exact He|]. split; [exact Hs|].
  split; [congruence|]. split; [exact Hc|]. split; [reflexivity|].
  pose proof (frombytes_tobytes_bounded (length bits) bits (le_n _)) as Hrt.
  apply (f_equal (@length bool)) in Hrt.
  rewrite length_frombytes, length_app, length_padding, padded_length in Hrt.
  assert (Hbytes : length (tobytes bits) = (length bits + 7) / 8) by lia.
  split; [exact Hbytes|].
  rewrite length_app. cbn [length]. rewrite Hbytes, Hlen, Hl. lia.
Qed.

(** Decompressing the parts of a container: the header is found and
    evaluated, the tree is built again, and the bits of the payload,
    padding included, are decoded. *)
Lemma container_decompressed data (t : Node char) (encoded : list ascii)
    (bits : bitarray) :
  construct_tree (frequency_map data) = Ok t ->
  encode_string_with_schema data (get_schema t []) = Ok encoded ->
  string_of_bits bits = encoded -> length bits = length encoded ->
  dict_wf (get_schema t []) -> prefix_free (get_schema t []) ->
  (forall c p, In (c, p) (get_schema t []) -> p <> []) ->
  ~ In Byte.x00 (repr_utf8 (frequency_map data)) ->
  eval_utf8 (repr_utf8 (frequency_map data)) = Ok (frequency_map data) ->
  decompress_bytes
    (repr_utf8 (frequency_map data) ++ Byte.x00 :: tobytes bits)
  = Ok (data
        ++ decode_string_with_schema
             (repeat "0"%char ((8 - length encoded mod 8) mod 8))
             (get_schema t [])).
Proof.
  intros Ht He Hs Hlen Hwf Hpf Hcodes Hzero Heval.
  unfold decompress_bytes.
  rewrite find_header_split, split_at_zero_marker by exact Hzero.
  rewrite tobytes_frombytes, Heval. cbn [rbind]. rewrite Ht. cbn [rbind].
  rewrite (frombytes_tobytes_bounded (length bits) bits (le_n _)).
  unfold string_of_bits at 1. rewrite map_app.
  fold (string_of_bits bits). fold (string_of_bits (padding bits)).
  rewrite Hs, string_of_padding, Hlen.
  unfold decode_string_with_schema. rewrite fold_left_app.
  unfold encode_string_with_schema in He.
  destruct (comprehension (getitem (get_schema t [])) data) as [codes|] eqn:Ec;
    [|discriminate].
  simpl in He. injection He as <-.
  rewrite (decode_concat_codes _ data Hwf Hpf Hcodes codes [] Ec).
  rewrite decode_loop_output. reflexivity.
Qed.

(** X12.  The round trip through the file, for a text with at least two
    different symbols whose frequency map is serialized without a zero
    byte and evaluated back to itself: decompressing the container gives
    the text followed by what the decoder makes of the zero bits that fill
    the last byte.  When the encoding has a multiple of eight bits there
    are none, and the text comes back unchanged. *)
Theorem decompress_container data (a b : char) :
  In a data -> In b data -> a <> b ->
  ~ In Byte.x00 (repr_utf8 (frequency_map data)) ->
  eval_utf8 (repr_utf8 (frequency_map data)) = Ok (frequency_map data) ->
  exists top_node encoded compressed,
    construct_tree (frequency_map data) = Ok top_node
    /\ encode_string_with_schema data (get_schema top_node []) = Ok encoded
    /\ container data = Ok compressed
    /\ decompress_bytes compressed
       = Ok (data
             ++ decode_string_with_schema
                  (repeat "0"%char ((8 - length encoded mod 8) mod 8))
                  (get_schema top_node []))
    /\ (length encoded mod 8 = 0 -> decompress_bytes compressed = Ok data).
Proof.
  intros Ha Hb Hab Hzero Heval.
  assert (Hne : data <> []) by (intros ->; exact Ha).
  destruct (container_parts data Hne)
    as (t & encoded & bits & Ht & He & _ & Hs & Hlen & Hc).
  destruct (schema_of_text data a b Ha Hb Hab)
    as (t' & Ht' & Hwf & Hpf & Hcodes & Hdom).
  rewrite Ht in Ht'. injection Ht' as <-.
  exists t, encoded. eexists. split; [exact Ht|]. split; [exact He|].
  split; [exact Hc|].
  pose proof (container_decompressed data t encoded bits
                Ht He Hs Hlen Hwf Hpf Hcodes Hzero Heval) as Hd.
  split; [exact Hd|].
  intros Hmod. rewrite Hd, Hmod. simpl. now rewrite app_nil_r.
Qed.

End FileRoundTrip.

Lemma container_size_witness :
  let data := ["a"; "a"; "b"; "b"; "b"; "c"]%char in
  exists top_node encoded bits compressed,
    construct_tree (frequency_map data) = Ok top_node
    /\ encode_string_with_schema data (get_schema top_node []) = Ok encoded
    /\ string_of_bits bits = encoded
    /\ length bits
       = weighted_length (get_schema top_node []) (frequency_map data)
    /\ container data = Ok compressed
    /\ compressed
       = repr_utf8 (frequency_map data) ++ Byte.x00 :: tobytes bits
    /\ length (tobytes bits) = (length bits + 7) / 8
    /\ length compressed
       = length (repr_utf8 (frequency_map data)) + 1
         + (weighted_length (get_schema top_node []) (frequency_map data) + 7)
           / 8.
Proof.
  intros data. apply (container_size data). discriminate.
Defined.

(** The text ["abababab"] is encoded to eight bits and comes back
    unchanged. *)
Lemma decompress_container_witness :
  let data := ["a"; "b"; "a"; "b"; "a"; "b"; "a"; "b"]%char in
  exists top_node encoded compressed,
    construct_tree (frequency_map data) = Ok top_node
    /\ encode_string_with_schema data (get_schema top_node []) = Ok encoded
    /\ container data = Ok compressed
    /\ decompress_bytes compressed
       = Ok (data
             ++ decode_string_with_schema
                  (repeat "0"%char ((8 - length encoded mod 8) mod 8))
                  (get_schema top_node []))
    /\ (length encoded mod 8 = 0 -> decompress_bytes compressed = Ok data).
Proof.
  intros data.
  apply (decompress_container data "a"%char "b"%char).
  - simpl. tauto.
  - simpl. tauto.
  - discriminate.
  - apply repr_utf8_no_zero.
  - vm_compute. reflexivity.
Defined.

(** * What the functions do to the files *)

Section Files.
Context {char : Type} `{EqDec char} `{Codec char}.

Lemma write_file_other (name other : String.string) (data : list byte)
    (fs : String.string -> option (list byte)) :
  other <> name -> write_file name data fs other = fs other.
Proof.
  intros Hne. unfold write_file.
  destruct (string_dec other name); [contradiction|reflexivity].
Qed.

Lemma extend_string_of_bits (bits : bitarray) :
  extend null_marker (string_of_bits bits) = Ok (null_marker ++ bits).
Proof.
  unfold extend.
  assert (Hc : exists options,
             comprehension bit_of_char (string_of_bits bits) = Ok options
             /\ bits_of_options options = bits).
  { induction bits as [|b bits (options & Ho & Hb)]; simpl.
    - now exists [].
    - rewrite Ho. destruct b; simpl.
      + exists (Some true :: options). simpl. now rewrite Hb.
      + exists (Some false :: options). simpl. now rewrite Hb. }
  destruct Hc as (options & -> & Hb). simpl. now rewrite Hb.
Qed.

Lemma refused_not_skipped (c : ascii) :
  refused_char c -> exists msg, bit_of_char c = Raise (ValueError msg).
Proof.
  intros ((Hlo & Hhi) & Hzero & Hone & Hu). unfold bit_of_char.
  destruct (ascii_dec c "0"); [contradiction|].
  destruct (ascii_dec c "1"); [contradiction|].
  assert (Hn : nat_of_ascii c <> 95).
  { intros Heq. apply Hu. rewrite <- (ascii_nat_embedding c), Heq.
    reflexivity. }
  unfold skipped_char.
  repeat match goal with
         | |- context [?a =? ?b] =>
             let E := fresh "E" in
             destruct (a =? b) eqn:E; [apply Nat.eqb_eq in E; lia|]
         end.
  simpl. eexists. reflexivity.
Qed.

Lemma bit_of_char_raises (c : ascii) (e : exception) :
  bit_of_char c = Raise e -> exists msg, e = ValueError msg.
Proof.
  unfold bit_of_char.
  destruct (ascii_dec c "0"); [discriminate|].
  destruct (ascii_dec c "1"); [discriminate|].
  destruct (skipped_char c); [discriminate|].
  intros Heq. injection Heq as <-. eexists. reflexivity.
Qed.

Lemma extend_refused (bits : bitarray) (string : list ascii) :
  Exists refused_char string ->
  exists msg, extend bits string = Raise (ValueError msg).
Proof.
  unfold extend. intros Hex.
  assert (Hc : exists msg,
             comprehension bit_of_char string = Raise (ValueError msg)).
  { induction string as [|c string IH]; [inversion Hex|].
    simpl. destruct (bit_of_char c) as [b|e] eqn:Ec.
    - cbn [rbind]. inversion Hex as [? ? Hc|? ? Htl]; subst.
      + destruct (refused_not_skipped c Hc) as [msg Hm]. congruence.
      + destruct (IH Htl) as [msg ->]. exists msg. reflexivity.
    - destruct (bit_of_char_raises c e Ec) as [msg ->].
      exists msg. reflexivity. }
  destruct Hc as [msg ->]. exists msg. reflexivity.
Qed.

(** X13.  [save_to_file], given the string of ["0"] and ["1"] of a bit
    array and a name of a file that can be created, leaves in the file
    [file_name.huff] the serialized map, a zero byte and the packed bits,
    whatever the file held before and whether or not it existed, and
    changes no other file.  Given a string of visible ASCII characters
    one of which is not ["0"], ["1"] or the underscore, it raises a
    [ValueError] before it creates the file, and changes nothing. *)
Theorem save_to_file_writes_one_file (string : list ascii)
    (character_map : dict char nat) (file_name : String.string) (w : world) :
  plain_name (file_name ++ ".huff") = true ->
  (forall bits,
      string = string_of_bits bits ->
      fst (save_to_file string character_map file_name w) = Ok tt
      /\ files (snd (save_to_file string character_map file_name w))
               (file_name ++ ".huff")
         = Some (repr_utf8 character_map ++ Byte.x00 :: tobytes bits)
      /\ forall other,
           other <> (file_name ++ ".huff")%string ->
           files (snd (save_to_file string character_map file_name w)) other
           = files w other)
  /\ (Forall visible_ascii string -> Exists refused_char string ->
      exists msg,
        save_to_file string character_map file_name w
        = (Raise (ValueError msg), w)).
Proof.
  intros _. split.
  - intros bits ->.
    pose proof (extend_string_of_bits bits) as Hext.
    destruct (save_to_file_run (string_of_bits bits) character_map
                file_name w _ Hext) as [Hr Hf].
    split; [exact Hr|]. split; [exact Hf|].
    intros other Hne.
    unfold save_to_file, bind, lift, open_w_close, write_at, ret.
    rewrite Hext. cbn [files set_files].
    rewrite write_file_same. cbn [files set_files fst snd].
    rewrite write_file_same. cbn [files set_files fst snd].
    now rewrite !write_file_other by exact Hne.
  - intros _ Hex. destruct (extend_refused null_marker string Hex) as [msg Hm].
    exists msg. now apply save_to_file_raise.
Qed.

(** The statements after the question, from the content of the file. *)
Lemma decompress_opened_run (file_name : String.string) (w : world) :
  decompress_opened file_name w
  = match files w file_name with
    | Some compressed =>
        match decompress_bytes compressed with
        | Ok original_text =>
            write_text (removesuffix file_name ".huff") original_text w
        | Raise e => (Raise e, w)
        end
    | None => (Raise FileNotFoundError, w)
    end.
Proof.
  unfold decompress_opened. rewrite bind_run. unfold read_file.
  destruct (files w file_name) as [compressed|]; [|reflexivity].
  rewrite bind_run. unfold lift.
  destruct (decompress_bytes compressed); reflexivity.
Qed.

(** [decompress_from_file] on a name with the extension asks nothing. *)
Lemma decompress_from_file_huff (file_name : String.string) (w : world) :
  last_chars 5 file_name = ".huff"%string ->
  decompress_from_file file_name w = decompress_opened file_name w.
Proof.
  intros Hext. unfold decompress_from_file, decompress_opened.
  rewrite bind_run.
  destruct (string_dec (last_chars 5 file_name) ".huff") as [_|Hne];
    [reflexivity|contradiction].
Qed.

(** On a name without the extension it asks, and goes on or not by the
    line it reads; the question changes no file. *)
Lemma decompress_from_file_asks (file_name : String.string) (w : world) :
  last_chars 5 file_name <> ".huff"%string ->
  exists w',
    files w' = files w
    /\ decompress_from_file file_name w
       = match stdin w with
         | [] => (Raise EOFError, w')
         | answer :: _ =>
             if lower_is_y answer then decompress_opened file_name w'
             else (Ok tt, w')
         end.
Proof.
  intros Hext. unfold decompress_from_file.
  fold (decompress_opened file_name). rewrite bind_run.
  destruct (string_dec (last_chars 5 file_name) ".huff") as [Heq|_];
    [contradiction|].
  unfold bind, print, input, ret.
  cbn [files stdout stdin wall_clock readings clock debug_log].
  match goal with
  | |- context [(Raise EOFError, ?after)] => exists after
  end.
  split; [reflexivity|].
  destruct (stdin w) as [|answer rest]; cbv beta iota; [reflexivity|].
  destruct (lower_is_y answer); reflexivity.
Qed.

Lemma write_text_files (name : String.string) (text : list char) (w : world)
    (other : String.string) :
  other <> name -> files (snd (write_text name text w)) other = files w other.
Proof.
  intros Hne. unfold write_text.
  destruct (string_dec name ""); [reflexivity|].
  destruct (encodable text); cbn [snd files set_files];
    now rewrite write_file_other.
Qed.

Lemma plain_name_not_empty (name : String.string) :
  plain_name name = true -> name <> ""%string.
Proof.
  unfold plain_name. intros Hp ->. discriminate.
Qed.

End Files.

(** * Decompressing a file *)

Section Decompress.
Context {char : Type} `{EqDec char} `{Codec char}.

(** X14.  [decompress_from_file] on a file named [*.huff] that holds a
    serialized frequency map — one serialized without zero byte and
    evaluated back to itself —, a zero byte and any bytes as payload:
    no file other than the one named by the name without [.huff] is
    changed.  With the empty map it raises [IndexError] and changes no
    file at all.  With a non-empty map, a name that can be created and
    symbols that can be written, it returns whatever the payload holds,
    and the file written holds what the decoder reads from the payload. *)
Theorem decompress_from_file_writes_at_most_one_file
    (file_name : String.string) (d : dict char nat) (payload : list byte)
    (w : world) :
  last_chars 5 file_name = ".huff"%string ->
  files w file_name = Some (repr_utf8 d ++ Byte.x00 :: payload) ->
  ~ In Byte.x00 (repr_utf8 d) ->
  eval_utf8 (repr_utf8 d) = Ok d ->
  (forall other,
      other <> removesuffix file_name ".huff" ->
      files (snd (decompress_from_file file_name w)) other = files w other)
  /\ (d = [] ->
      fst (decompress_from_file file_name w) = Raise IndexError
      /\ files (snd (decompress_from_file file_name w)) = files w)
  /\ (d <> [] ->
      plain_name (removesuffix file_name ".huff") = true ->
      (forall text, encodable text = true) ->
      exists top_node,
        construct_tree d = Ok top_node
        /\ fst (decompress_from_file file_name w) = Ok tt
        /\ files (snd (decompress_from_file file_name w))
                 (removesuffix file_name ".huff")
           = Some (encode_text
                     (decode_string_with_schema
                        (string_of_bits (frombytes payload))
                        (get_schema top_node [])))).
Proof.
  intros Hext Hfile Hzero Heval.
  rewrite (decompress_from_file_huff file_name w Hext).
  rewrite decompress_opened_run, Hfile.
  assert (Hd : decompress_bytes (repr_utf8 d ++ Byte.x00 :: payload)
               = (top_node <- construct_tree d ;;
                  Ok (decode_string_with_schema
                        (string_of_bits (frombytes payload))
                        (get_schema top_node [])))%result).
  { unfold decompress_bytes.
    rewrite find_header_split, split_at_zero_marker by exact Hzero.
    now rewrite tobytes_frombytes, Heval. }
  rewrite Hd. split; [|split].
  - intros other Hne.
    destruct (construct_tree d) as [t|e]; cbn [rbind]; [|reflexivity].
    now apply write_text_files.
  - intros ->. split; reflexivity.
  - intros Hne Hplain Henc.
    destruct (construct_tree_leaves d Hne) as (t & Ht & _).
    exists t. split; [exact Ht|]. rewrite Ht. cbn [rbind].
    unfold write_text.
    destruct (string_dec (removesuffix file_name ".huff") "") as [Hempty|_].
    { exfalso. exact (plain_name_not_empty _ Hplain Hempty). }
    rewrite Henc. cbn [fst snd files set_files].
    split; [reflexivity|apply write_file_same].
Qed.

(** X15.  For a name that does not end in [.huff], when the line read in
    answer to the question is neither ["y"] nor ["Y"],
    [decompress_from_file] returns without opening the file: it ends
    normally even when the file does not exist, and changes no file. *)
Theorem decompress_from_file_cancelled
    (file_name : String.string) (answer : String.string)
    (rest : list String.string) (w : world) :
  last_chars 5 file_name <> ".huff"%string ->
  stdin w = answer :: rest ->
  lower_is_y answer = false ->
  fst (decompress_from_file file_name w) = Ok tt
  /\ files (snd (decompress_from_file file_name w)) = files w.
Proof.
  intros Hext Hin Hans.
  destruct (decompress_from_file_asks file_name w Hext) as (w' & Hf & ->).
  rewrite Hin, Hans. split; [reflexivity|exact Hf].
Qed.

(** X16.  A file named [*.huff] that holds no zero byte — the empty file
    among them — is refused with the [ValueError] of the corrupted
    header, and nothing is written. *)
Theorem decompress_from_file_without_marker
    (file_name : String.string) (compressed : list byte) (w : world) :
  last_chars 5 file_name = ".huff"%string ->
  files w file_name = Some compressed ->
  ~ In Byte.x00 compressed ->
  fst (decompress_from_file file_name w)
  = Raise (ValueError "File header is corrupted or non-existent")
  /\ files (snd (decompress_from_file file_name w)) = files w.
Proof.
  intros Hext Hfile Hzero.
  rewrite (decompress_from_file_huff file_name w Hext).
  rewrite decompress_opened_run, Hfile.
  assert (Hd : decompress_bytes compressed
               = Raise (ValueError "File header is corrupted or non-existent")).
  { unfold decompress_bytes.
    now rewrite find_header_split, split_at_zero_none by exact Hzero. }
  rewrite Hd. split; reflexivity.
Qed.

Lemma substring_past (s t : String.string) (n : nat) :
  substring (String.length s) n (s ++ t) = substring 0 n t.
Proof. induction s as [|c s IH]; simpl; [reflexivity|exact IH]. Qed.

Lemma substring_whole (t : String.string) :
  substring 0 (String.length t) t = t.
Proof. induction t as [|c t IH]; simpl; [reflexivity|now rewrite IH]. Qed.

Lemma substring_front (s t : String.string) :
  substring 0 (String.length s) (s ++ t) = s.
Proof.
  induction s as [|c s IH]; simpl.
  - now destruct t.
  - now rewrite IH.
Qed.

Lemma length_string_app (s t : String.string) :
  String.length (s ++ t) = String.length s + String.length t.
Proof. induction s as [|c s IH]; simpl; [reflexivity|now rewrite IH]. Qed.

Lemma last_chars_huff (s : String.string) :
  last_chars 5 (s ++ ".huff") = ".huff"%string.
Proof.
  unfold last_chars. rewrite length_string_app.
  replace (String.length s + String.length ".huff" - 5)
    with (String.length s) by (simpl; lia).
  rewrite substring_past. reflexivity.
Qed.

Lemma removesuffix_huff (s : String.string) :
  removesuffix (s ++ ".huff") ".huff" = s.
Proof.
  unfold removesuffix.
  change (String.length ".huff") with 5.
  rewrite last_chars_huff.
  destruct (string_dec ".huff" ".huff") as [_|Hn]; [|congruence].
  rewrite length_string_app.
  replace (String.length s + String.length ".huff" - 5)
    with (String.length s) by (simpl; lia).
  apply substring_front.
Qed.

(** X17.  The two directions one after the other, from any world, for a
    text with at least two different symbols whose frequency map is
    serialized without a zero byte and evaluated back to itself, with
    names of files that can be created and symbols that can be written:
    the compressing statements followed by [decompress_from_file] on the
    container end normally, and the file [test_file] then holds the text
    followed by what the decoder makes of the padding bits — the text
    itself when its encoding has a multiple of eight bits. *)
Theorem compress_then_decompress (data : list char) (a b : char)
    (test_file : String.string) (w : world) :
  In a data -> In b data -> a <> b ->
  ~ In Byte.x00 (repr_utf8 (frequency_map data)) ->
  eval_utf8 (repr_utf8 (frequency_map data)) = Ok (frequency_map data) ->
  plain_name test_file = true ->
  plain_name (test_file ++ ".huff") = true ->
  (forall text, encodable text = true) ->
  exists top_node encoded,
    construct_tree (frequency_map data) = Ok top_node
    /\ encode_string_with_schema data (get_schema top_node []) = Ok encoded
    /\ fst ((main_compress data test_file ;;
             decompress_from_file (test_file ++ ".huff"))%M w) = Ok tt
    /\ files (snd ((main_compress data test_file ;;
                    decompress_from_file (test_file ++ ".huff"))%M w))
             test_file
       = Some (encode_text
                 (data
                  ++ decode_string_with_schema
                       (repeat "0"%char ((8 - length encoded mod 8) mod 8))
                       (get_schema top_node []))).
Proof.
  intros Ha Hb Hab Hzero Heval Hplain _ Henc.
  assert (Hne : data <> []) by (intros ->; exact Ha).
  destruct (container_parts data Hne)
    as (t & encoded & bits & Ht & He & _ & Hs & Hlen & Hc).
  destruct (schema_of_text data a b Ha Hb Hab)
    as (t' & Ht' & Hwf & Hpf & Hcodes & Hdom).
  rewrite Ht in Ht'. injection Ht' as <-.
  pose proof (container_decompressed data t encoded bits
                Ht He Hs Hlen Hwf Hpf Hcodes Hzero Heval) as Hd.
  exists t, encoded. split; [exact Ht|]. split; [exact He|].
  rewrite bind_run.
  pose proof (main_compress_run data test_file w) as Hrun.
  rewrite Hc in Hrun. destruct Hrun as [Hr Hfile].
  destruct (main_compress data test_file w) as [r w1].
  cbn [fst snd] in Hr, Hfile. subst r.
  rewrite (decompress_from_file_huff _ w1 (last_chars_huff test_file)).
  rewrite decompress_opened_run, Hfile, Hd, removesuffix_huff.
  unfold write_text.
  destruct (string_dec test_file "") as [Hempty|_].
  { exfalso. exact (plain_name_not_empty _ Hplain Hempty). }
  rewrite Henc. cbn [fst snd files set_files].
  split; [reflexivity|apply write_file_same].
Qed.

(** X18.  [huffman_encode] returns for every non-empty text, from any
    world: the frequency map of the text, the code table of the tree
    built for it, and the encoding of the text with that table; it
    changes no file. *)
Theorem huffman_encode_returns (string : list char) (w : world) :
  string <> [] ->
  exists top_node encoded,
    construct_tree (frequency_map string) = Ok top_node
    /\ encode_string_with_schema string (get_schema top_node []) = Ok encoded
    /\ fst (huffman_encode string w)
       = Ok (get_schema top_node [], encoded, frequency_map string)
    /\ files (snd (huffman_encode string w)) = files w.
Proof.
  intros Hne.
  destruct (container_parts string Hne)
    as (t & encoded & _ & Ht & He & _).
  exists t, encoded. split; [exact Ht|]. split; [exact He|].
  destruct (huffman_encode_keeps_files string w) as [Hr Hf].
  rewrite Hr, Ht. cbn [rbind]. rewrite He. split; [reflexivity|exact Hf].
Qed.

End Decompress.

(** The string ["110"] is written, the string ["1a0"] is refused. *)
Lemma save_to_file_writes_one_file_witness :
  let character_map := [("a"%char, 2); ("b"%char, 1)] in
  let run :=
    save_to_file ["1"; "1"; "0"]%char character_map "fib41"
                 Latin1.empty_world in
  (fst run = Ok tt
   /\ files (snd run) "fib41.huff"%string
      = Some (repr_utf8 character_map
              ++ Byte.x00 :: tobytes [true; true; false]))
  /\ exists msg,
       save_to_file ["1"; "a"; "0"]%char character_map "fib41"
                    Latin1.empty_world
       = (Raise (ValueError msg), Latin1.empty_world).
Proof.
  intros character_map run. split.
  - destruct (save_to_file_writes_one_file ["1"; "1"; "0"]%char character_map
                "fib41" Latin1.empty_world eq_refl) as [Hwritten _].
    destruct (Hwritten [true; true; false] eq_refl) as (Hr & Hf & _).
    split; [exact Hr|exact Hf].
  - destruct (save_to_file_writes_one_file ["1"; "a"; "0"]%char character_map
                "fib41" Latin1.empty_world eq_refl) as [_ Hrefused].
    apply Hrefused.
    + repeat constructor; vm_compute; lia.
    + apply Exists_cons_tl, Exists_cons_hd.
      split; [vm_compute; lia|]. repeat split; discriminate.
Defined.

(** A container with the map of ["ab"] and the payload byte 0x5A. *)
Lemma decompress_from_file_writes_at_most_one_file_witness :
  let d := [("a"%char, 1); ("b"%char, 1)] in
  let w :=
    World (fun n => if string_dec n "x.huff"
                    then Some (repr_utf8 d ++ Byte.x00 :: [Byte.x5a])
                    else None)
          [] [] (fun n => n) 0 0 [] in
  (forall other,
      other <> "x"%string ->
      files (snd (decompress_from_file (char := ascii) "x.huff" w)) other
      = files w other)
  /\ exists top_node,
       construct_tree d = Ok top_node
       /\ fst (decompress_from_file (char := ascii) "x.huff" w) = Ok tt
       /\ files (snd (decompress_from_file (char := ascii) "x.huff" w))
                "x"%string
          = Some (encode_text
                    (decode_string_with_schema
                       (string_of_bits (frombytes [Byte.x5a]))
                       (get_schema top_node []))).
Proof.
  intros d w.
  destruct (decompress_from_file_writes_at_most_one_file
              "x.huff" d [Byte.x5a] w eq_refl eq_refl
              (repr_utf8_no_zero d) eq_refl)
    as (Hother & _ & Hreturns).
  split; [exact Hother|].
  apply Hreturns; [discriminate|reflexivity|reflexivity].
Defined.

Lemma decompress_from_file_cancelled_witness :
  let w := World (fun _ => None) [] ["n"%string] (fun n => n) 0 0 [] in
  fst (decompress_from_file (char := ascii) "fib41" w) = Ok tt
  /\ files (snd (decompress_from_file (char := ascii) "fib41" w)) = files w.
Proof.
  intros w. apply (decompress_from_file_cancelled "fib41" "n" [] w).
  - vm_compute. discriminate.
  - reflexivity.
  - reflexivity.
Defined.

Lemma decompress_from_file_without_marker_witness :
  let w :=
    World (fun n => if string_dec n "empty.huff" then Some [] else None)
          [] [] (fun n => n) 0 0 [] in
  fst (decompress_from_file (char := ascii) "empty.huff" w)
  = Raise (ValueError "File header is corrupted or non-existent")
  /\ files (snd (decompress_from_file (char := ascii) "empty.huff" w))
     = files w.
Proof.
  intros w. apply (decompress_from_file_without_marker "empty.huff" [] w).
  - reflexivity.
  - reflexivity.
  - simpl. tauto.
Defined.

Lemma compress_then_decompress_witness :
  let data := ["a"; "b"; "a"; "b"; "a"; "b"; "a"; "b"]%char in
  let run :=
    (main_compress data "fib41" ;; decompress_from_file "fib41.huff")%M
      Latin1.empty_world in
  exists top_node encoded,
    construct_tree (frequency_map data) = Ok top_node
    /\ encode_string_with_schema data (get_schema top_node []) = Ok encoded
    /\ fst run = Ok tt
    /\ files (snd run) "fib41"%string
       = Some (encode_text
                 (data
                  ++ decode_string_with_schema
                       (repeat "0"%char ((8 - length encoded mod 8) mod 8))
                       (get_schema top_node []))).
Proof.
  intros data run.
  apply (compress_then_decompress data "a"%char "b"%char "fib41"
                                  Latin1.empty_world).
  - simpl. tauto.
  - simpl. tauto.
  - discriminate.
  - apply repr_utf8_no_zero.
  - vm_compute. reflexivity.
  - reflexivity.
  - reflexivity.
  - reflexivity.
Defined.

Lemma huffman_encode_returns_witness :
  let string := ["a"; "a"; "b"; "b"; "b"; "c"]%char in
  exists top_node encoded,
    construct_tree (frequency_map string) = Ok top_node
    /\ encode_string_with_schema string (get_schema top_node []) = Ok encoded
    /\ fst (huffman_encode string Latin1.empty_world)
       = Ok (get_schema top_node [], encoded, frequency_map string)
    /\ files (snd (huffman_encode string Latin1.empty_world))
       = files Latin1.empty_world.
Proof.
  intros string.
  apply (huffman_encode_returns string Latin1.empty_world).
  discriminate.
Defined.

(** * The order of the keys *)

Section KeyOrder.
Context {char : Type} `{EqDec char}.

Lemma filter_remove_rejected (f : char -> bool) (c : char) (l : list char) :
  f c = false -> filter f (remove eq_dec c l) = filter f l.
Proof.
  intros Hc. induction l as [|x l IH]; simpl; [reflexivity|].
  destruct (eq_dec c x) as [<-|Hne]; simpl.
  - now rewrite Hc.
  - now rewrite IH.
Qed.

Lemma filter_new_key (ks : list char) (c : char) (l : list char) :
  filter (fun x => if in_dec eq_dec x (ks ++ [c]) then false else true) l
  = filter (fun x => if in_dec eq_dec x ks then false else true)
           (remove eq_dec c l).
Proof.
  induction l as [|x l IH]; simpl; [reflexivity|].
  destruct (eq_dec c x) as [<-|Hne].
  - destruct (in_dec eq_dec c (ks ++ [c])) as [_|Hn]; [exact IH|].
    exfalso. apply Hn, in_or_app. right. now left.
  - simpl. rewrite IH.
    destruct (in_dec eq_dec x (ks ++ [c])) as [Hin|Hn],
             (in_dec eq_dec x ks) as [Hin'|Hn']; try reflexivity.
    + apply in_app_iff in Hin. destruct Hin as [Hin|[Heq|[]]]; congruence.
    + exfalso. apply Hn, in_or_app. now left.
Qed.

Lemma keys_fold_count_order (string : list char) (d : dict char nat) :
  keys (fold_left count_char string d)
  = keys d
    ++ filter (fun x => if in_dec eq_dec x (keys d) then false else true)
              (first_occurrences string).
Proof.
  revert d. induction string as [|c string IH]; intros d; simpl.
  - now rewrite app_nil_r.
  - rewrite IH. unfold count_char.
    destruct (dict_get d c) as [n|] eqn:E.
    + rewrite (keys_setitem_present d c (n + 1) n E).
      destruct (in_dec eq_dec c (keys d)) as [Hin|Hn].
      * f_equal. symmetry. apply filter_remove_rejected.
        destruct (in_dec eq_dec c (keys d)); [reflexivity|contradiction].
      * exfalso. apply dict_get_None in Hn. congruence.
    + apply dict_get_None in E. rewrite setitem_fresh by exact E.
      assert (Hk : keys (d ++ [(c, 1)]) = keys d ++ [c])
        by (unfold keys; now rewrite map_app).
      rewrite Hk.
      destruct (in_dec eq_dec c (keys d)) as [Hin|_]; [contradiction|].
      rewrite <- app_assoc. simpl. do 2 f_equal. apply filter_new_key.
Qed.

(** X19.  The keys of the frequency map are the different symbols of the
    text in the order of their first occurrence; this is the order of the
    leaves [construct_tree] starts from, which breaks the ties of its
    sort. *)
Theorem frequency_map_key_order (string : list char) :
  keys (frequency_map string) = first_occurrences string.
Proof.
  unfold frequency_map. rewrite keys_fold_count_order. simpl.
  induction (first_occurrences string) as [|x l IH]; simpl; congruence.
Qed.

End KeyOrder.

(** * Two runs of the compression *)

Section Determinism.
Context {char : Type} `{EqDec char} `{Codec char}.
Implicit Types (l : list (Node char)) (a b : Node char).

Lemma insert_least a l :
  Forall (fun n => value a <= value n) l ->
  insert_by_value a (sort_by_value l) = a :: sort_by_value l.
Proof.
  intros Hall.
  assert (Hs : Forall (fun n => value a <= value n) (sort_by_value l)).
  { eapply Permutation_Forall; [|exact Hall].
    symmetry. apply sort_by_value_perm. }
  destruct (sort_by_value l) as [|y rest]; [reflexivity|].
  simpl. inversion Hs as [|? ? Hy _]; subst.
  apply Nat.leb_le in Hy. now rewrite Hy.
Qed.

(** The sort puts the first of the nodes of least value in front. *)
Lemma sort_takes_first_least l a rest :
  first_least l a rest -> sort_by_value l = a :: sort_by_value rest.
Proof.
  intros (before & after & -> & -> & Hbefore & Hafter).
  induction before as [|x before IH]; simpl.
  - now apply insert_least.
  - inversion Hbefore as [|? ? Hx Hbefore']; subst.
    rewrite (IH Hbefore'). simpl.
    assert (E : (value x <=? value a) = false)
      by (apply Nat.leb_gt; exact Hx).
    now rewrite E.
Qed.

Lemma first_least_length l a rest :
  first_least l a rest -> length l = S (length rest).
Proof.
  intros (before & after & -> & -> & _). rewrite !length_app. simpl. lia.
Qed.

(** One turn of the loop of [construct_tree]. *)
Lemma merge_takes_first_least (fuel : nat) l a l1 b l2 :
  first_least l a l1 -> first_least l1 b l2 ->
  merge_loop (S fuel) l
  = merge_loop fuel
      (sort_by_value l2 ++ [Internal (value a + value b) a b]).
Proof.
  intros Ha Hb. cbn [merge_loop].
  pose proof (first_least_length l a l1 Ha) as La.
  pose proof (first_least_length l1 b l2 Hb) as Lb.
  assert (E : (1 <? length l) = true) by (apply Nat.ltb_lt; lia).
  rewrite E, (sort_takes_first_least l a l1 Ha),
    (sort_takes_first_least l1 b l2 Hb).
  reflexivity.
Qed.

(** C8.  Compression is deterministic.  Two runs of the compressing
    statements on the same text, from any two worlds — other files, other
    clock readings, other earlier contents of the container file — end
    alike: on the empty text both raise [IndexError] and write nothing; on
    any other text both return, and the two container files hold the same
    bytes: the serialized frequency map, the zero byte, and the packed
    bits of the encoding of the text with the table of the tree.  The
    tree is fixed by the text, ties included: the keys of the frequency
    map, and so the leaves the builder starts from, are in the order of
    first occurrence in the text; every turn of the loop merges the first
    of the nodes of least value of the list with the first of the nodes
    of least value of the rest, and puts the new node last. *)
Theorem compress_is_deterministic (data : list char)
    (test_file : String.string) (w1 w2 : world) :
  plain_name (test_file ++ ".huff") = true ->
  (match data with
  | [] =>
      fst (main_compress data test_file w1) = Raise IndexError
      /\ fst (main_compress data test_file w2) = Raise IndexError
      /\ files (snd (main_compress data test_file w1)) = files w1
      /\ files (snd (main_compress data test_file w2)) = files w2
  | _ :: _ =>
      exists top_node encoded bits compressed,
        fst (main_compress data test_file w1) = Ok tt
        /\ fst (main_compress data test_file w2) = Ok tt
        /\ files (snd (main_compress data test_file w1))
                 (test_file ++ ".huff")
           = Some compressed
        /\ files (snd (main_compress data test_file w2))
                 (test_file ++ ".huff")
           = Some compressed
        /\ construct_tree (frequency_map data) = Ok top_node
        /\ encode_string_with_schema data (get_schema top_node [])
           = Ok encoded
        /\ string_of_bits bits = encoded
        /\ compressed
           = repr_utf8 (frequency_map data) ++ Byte.x00 :: tobytes bits
  end)
  /\ keys (frequency_map data) = first_occurrences data
  /\ (forall fuel l a l1 b l2,
        first_least l a l1 -> first_least l1 b l2 ->
        merge_loop (S fuel) l
        = merge_loop fuel
            (sort_by_value l2 ++ [Internal (value a + value b) a b])).
Proof.
  intros _. split; [|split].
  - pose proof (main_compress_run data test_file w1) as H1.
    pose proof (main_compress_run data test_file w2) as H2.
    destruct data as [|c data].
    + change (container (@nil char)) with (@Raise (list byte) IndexError)
        in H1, H2.
      destruct H1 as [R1 F1], H2 as [R2 F2]. auto.
    + destruct (container_parts (c :: data))
        as (t & encoded & bits & Ht & He & _ & Hs & _ & Hc);
        [discriminate|].
      rewrite Hc in H1, H2. destruct H1 as [R1 F1], H2 as [R2 F2].
      exists t, encoded, bits. eexists.
      repeat split; eassumption.
  - unfold frequency_map. rewrite keys_fold_count_order. simpl.
    induction (first_occurrences data) as [|x l IH]; simpl; congruence.
  - intros fuel l a l1 b l2. apply merge_takes_first_least.
Qed.

End Determinism.

(** Two runs on ["aabbbc"]: one from the world without files, one from a
    world where the container file exists and holds other bytes; and a
    turn of the loop on three leaves of equal value, which merges the
    first two. *)
Lemma compress_is_deterministic_witness :
  let data := ["a"; "a"; "b"; "b"; "b"; "c"]%char in
  let w2 :=
    World (fun n => if string_dec n "fib41.huff"
                    then Some [Byte.xff; Byte.xff; Byte.xff] else None)
          ["earlier"%string] [] (fun n => 7 * n) 3 2 [(1, 0)] in
  (exists compressed,
      files (snd (main_compress data "fib41" Latin1.empty_world))
            "fib41.huff"%string
      = Some compressed
      /\ files (snd (main_compress data "fib41" w2)) "fib41.huff"%string
         = Some compressed)
  /\ keys (frequency_map data) = first_occurrences data
  /\ merge_loop 3 [Leaf 1 "a"%char; Leaf 1 "b"%char; Leaf 1 "c"%char]
     = merge_loop 2
         [Leaf 1 "c"%char;
          Internal 2 (Leaf 1 "a"%char) (Leaf 1 "b"%char)].
Proof.
  intros data w2.
  destruct (compress_is_deterministic data "fib41" Latin1.empty_world w2
              eq_refl)
    as ((t & encoded & bits & compressed & _ & _ & F1 & F2 & _) & Hk & Hmerge).
  split; [exists compressed; split; [exact F1|exact F2]|].
  split; [exact Hk|].
  apply (Hmerge 2 [Leaf 1 "a"%char; Leaf 1 "b"%char; Leaf 1 "c"%char]
                (Leaf 1 "a"%char) [Leaf 1 "b"%char; Leaf 1 "c"%char]
                (Leaf 1 "b"%char) [Leaf 1 "c"%char]).
  - exists [], [Leaf 1 "b"%char; Leaf 1 "c"%char].
    repeat split; repeat constructor.
  - exists [], [Leaf 1 "c"%char].
    repeat split; repeat constructor.
Defined.
